(** * Metadata store of the remote-object cache: bitmaps and the metadata table

    A shallow embedding of [MetadataStore] (metadata_store.cpp): the
    sqlite-backed table of [CacheMetadata] rows and the per-object
    dirty-block bitmaps with their packed on-disk form. *)

From Stdlib Require Import ZArith Lia DecimalString DecimalNat.
From stdpp Require Import base numbers option list gmap strings.

Local Open Scope Z_scope.
Local Open Scope nat_scope.

(** ** Bit vectors and packed bytes *)

(** [BitVec] is [std::vector<bool>]; a byte buffer is [std::vector<uint8_t>],
    each element a [Z] kept in [0, 256). Sizes and indices ([std::size_t])
    are [nat]: a vector long enough for an index computation to wrap around
    cannot be allocated. *)
Abbreviation BitVec := (list bool).

Definition uint8 (z : Z) : Z := (z mod 256)%Z.

(** [1u << k] *)
Definition bit_mask (k : nat) : Z := Z.shiftl 1 (Z.of_nat k).

(** [v.resize(n, false)] *)
Definition vec_resize (n : nat) (v : BitVec) : BitVec := resize n false v.

(** Bit [i] of a vector, clear beyond its end. *)
Definition bit_of (bits : BitVec) (i : nat) : bool :=
  default false (bits !! i).

Module Pack.

(** [bytes[i / 8] |= (1u << (i % 8))], the result stored back in a
    [uint8_t]. *)
Definition or_bit (bytes : list Z) (i : nat) : list Z :=
  <[i / 8 := uint8 (Z.lor (bytes !!! (i / 8)) (bit_mask (i mod 8)))]> bytes.

(** Body of the loop of [persistBitmap]. *)
Definition pack_step (bits : BitVec) (bytes : list Z) (i : nat) : list Z :=
  if (bits !!! i : bool) then or_bit bytes i else bytes.

(** The buffer of [persistBitmap] after the first [k] iterations of its
    loop, starting from [(bits.size() + 7) / 8] zero bytes. *)
Definition pack_upto (bits : BitVec) (k : nat) : list Z :=
  foldl (pack_step bits) (replicate ((length bits + 7) / 8) 0%Z) (seq 0 k).

(** The buffer [persistBitmap] writes: the loop run over every bit. *)
Definition pack (bits : BitVec) : list Z := pack_upto bits (length bits).

(** [vec[i * 8 + b] = bytes[i] & (1u << b)], converted to [bool]. *)
Definition load_bit (bytes : list Z) (i : nat) (vec : BitVec) (b : nat)
  : BitVec :=
  <[i * 8 + b := bool_decide (Z.land (bytes !!! i) (bit_mask b) ≠ 0%Z)]> vec.

(** Inner loop of [loadBitmap], [b] from 0 to 7. *)
Definition load_byte (bytes : list Z) (vec : BitVec) (i : nat) : BitVec :=
  foldl (load_bit bytes i) vec (seq 0 8).

(** [vec.resize(bytes.size() * 8, false)] followed by the two loops. *)
Definition unpack_into (bytes : list Z) (vec : BitVec) : BitVec :=
  foldl (load_byte bytes) (vec_resize (length bytes * 8) vec)
        (seq 0 (length bytes)).

(** The bits a buffer stands for, least significant bit first. *)
Definition decode (bytes : list Z) : BitVec :=
  (λ j, Z.testbit (bytes !!! (j / 8)) (Z.of_nat (j mod 8)))
    <$> seq 0 (length bytes * 8).

End Pack.

(** ** Strings handed to C interfaces *)

(** [s.c_str()] read by a callee that takes the text up to the first
    terminator (sqlite3_bind_text with length -1, [std::string] built from a
    [const char*]): the prefix of [s] before its first zero byte. *)
Fixpoint c_str (s : string) : string :=
  match s with
  | EmptyString => EmptyString
  | String c s' =>
      if Ascii.eqb c Ascii.zero then EmptyString else String c (c_str s')
  end.

(** A string without an embedded terminator, as every path is. *)
Definition cstring (s : string) : Prop := c_str s = s.

(** ** 64-bit and 32-bit integer conversions *)

(** [static_cast<sqlite3_int64>(v)] *)
Definition int64 (z : Z) : Z := ((z + 2 ^ 63) mod 2 ^ 64 - 2 ^ 63)%Z.

(** Conversion to the unsigned 64-bit [std::size_t]. *)
Definition size_t (z : Z) : Z := (z mod 2 ^ 64)%Z.

(** Truncation to [int], as [sqlite3_column_int] does. *)
Definition int32 (z : Z) : Z := ((z + 2 ^ 31) mod 2 ^ 32 - 2 ^ 31)%Z.

(** ** The sqlite engine, as far as the store uses it *)

Module Sqlite.

Inductive errcode :=
| SQLITE_ERROR | SQLITE_BUSY | SQLITE_LOCKED | SQLITE_NOMEM
| SQLITE_READONLY | SQLITE_IOERR | SQLITE_FULL | SQLITE_MISUSE.

Inductive rc :=
| SQLITE_OK | SQLITE_ROW | SQLITE_DONE | SQLITE_FAIL (e : errcode).

(** One row of table [metadata] without its key column [path]:
    local_path TEXT, size INTEGER, timestamp INTEGER,
    last_accessed INTEGER, dirty INTEGER. *)
Record row := Row {
  col_local_path : string;
  col_size : Z;
  col_timestamp : Z;
  col_last_accessed : Z;
  col_dirty : Z
}.

(** The table, keyed by its primary key [path]. *)
Abbreviation table := (gmap string row).

(** What the engine does with one statement: whether preparing it fails
    and whether stepping it fails (database not opened, locked, I/O
    error, ...). A failed step changes nothing. *)
Record engine := Engine {
  prepare_fault : option errcode;
  step_fault : option errcode
}.

Definition healthy : engine := Engine None None.

(** The five statements of the store with their bound parameters. *)
Inductive stmt :=
| Select (key : string)
| Upsert (key : string) (r : row)
| UpdateLastAccessed (v : Z) (key : string)
| UpdateDirty (v : Z) (key : string)
| Delete (key : string).

Definition sqlite3_prepare_v2 (e : engine) : rc :=
  match prepare_fault e with
  | None => SQLITE_OK
  | Some c => SQLITE_FAIL c
  end.

(** ON CONFLICT(path) DO UPDATE SET: the five columns of the existing row
    take the values of the excluded one. *)
Definition do_update (old excluded : row) : row :=
  Row (col_local_path excluded) (col_size excluded)
      (col_timestamp excluded) (col_last_accessed excluded)
      (col_dirty excluded).

Definition set_last_accessed (v : Z) (r : row) : row :=
  Row (col_local_path r) (col_size r) (col_timestamp r) v (col_dirty r).

Definition set_dirty (v : Z) (r : row) : row :=
  Row (col_local_path r) (col_size r) (col_timestamp r)
      (col_last_accessed r) v.

(** [sqlite3_step]: the result code, the current row of a SELECT, and the
    table afterwards. *)
Definition sqlite3_step (e : engine) (s : stmt) (t : table)
  : rc * option row * table :=
  match step_fault e with
  | Some c => (SQLITE_FAIL c, None, t)
  | None =>
      match s with
      | Select k =>
          match t !! k with
          | Some r => (SQLITE_ROW, Some r, t)
          | None => (SQLITE_DONE, None, t)
          end
      | Upsert k r =>
          match t !! k with
          | None => (SQLITE_DONE, None, <[k := r]> t)
          | Some old => (SQLITE_DONE, None, <[k := do_update old r]> t)
          end
      | UpdateLastAccessed v k =>
          (SQLITE_DONE, None, alter (set_last_accessed v) k t)
      | UpdateDirty v k => (SQLITE_DONE, None, alter (set_dirty v) k t)
      | Delete k => (SQLITE_DONE, None, delete k t)
      end
  end.

Definition is_ok (r : rc) : bool :=
  match r with SQLITE_OK => true | _ => false end.
Definition is_done (r : rc) : bool :=
  match r with SQLITE_DONE => true | _ => false end.

End Sqlite.

(** ** The host file system, as far as the bitmap files use it *)

Module Host.

(** Regular files by path; a byte is a [Z] in [0, 256). *)
Abbreviation files := (gmap string (list Z)).

(** How one [write] or [pread] ends: the error return -1, a transfer cut
    short after at most [k] bytes, or a complete transfer. *)
Inductive transfer := Fails | Short (k : nat) | Complete.

(** The number of bytes moved when [count] are asked for. *)
Definition moved (t : transfer) (count : nat) : option nat :=
  match t with
  | Fails => None
  | Short k => Some (k `min` count)
  | Complete => Some count
  end.

(** What the host answers for a path during one call of the store:
    whether [open] fails for reading or for writing, and how [write] and
    [pread] end. *)
Record env := Env {
  open_read_fails : string → bool;
  open_write_fails : string → bool;
  write_ends : string → transfer;
  pread_ends : string → transfer
}.

(** A host on which every call succeeds in full. *)
Definition reliable : env :=
  Env (λ _, false) (λ _, false) (λ _, Complete) (λ _, Complete).

(** [open(path, O_RDWR | O_CREAT | O_TRUNC, 0644)] that succeeded: the
    file exists and is empty. *)
Definition open_trunc (path : string) (fs : files) : files :=
  <[path := []]> fs.

(** [write(fd, data, count)] on a descriptor at the end of the file: the
    return value and the files afterwards. *)
Definition write (h : env) (path : string) (data : list Z) (fs : files)
  : Z * files :=
  match moved (write_ends h path) (length data) with
  | None => ((-1)%Z, fs)
  | Some n =>
      (Z.of_nat n, <[path := default [] (fs !! path) ++ take n data]> fs)
  end.

(** [pread(fd, buf, count, 0)] into a zero-initialised buffer of [count]
    bytes: the return value and the buffer afterwards. A read stops at
    the end of the file. *)
Definition pread (h : env) (path : string) (count : nat) (fs : files)
  : Z * list Z :=
  match moved (pread_ends h path) count with
  | None => ((-1)%Z, replicate count 0%Z)
  | Some n =>
      let got := take n (default [] (fs !! path)) in
      (Z.of_nat (length got), got ++ replicate (count - length got) 0%Z)
  end.

End Host.

(** ** Path layout *)

Module Layout.

(** The character 0 (code 48). *)
Definition char_0 : Ascii.ascii :=
  Ascii.Ascii false false false false true true false false.

Fixpoint zeros (k : nat) : string :=
  match k with
  | 0 => EmptyString
  | S k => String char_0 (zeros k)
  end.

(** Zero-padded decimal of width 8, [%08zu]. *)
Definition pad8 (s : string) : string := zeros (8 - String.length s) +:+ s.

Definition dec8 (n : nat) : string :=
  pad8 (NilEmpty.string_of_uint (Nat.to_uint n)).

(** Reading a decimal back, leading zeros allowed. *)
Definition read_dec (s : string) : option nat :=
  Nat.of_uint <$> NilEmpty.uint_of_string s.

(** Modelled from the spec: [fs_layout::bitmap_path] of fs_layout.h, which
    is not among the sources:
    {root}/bitmap/{hh[0:2]}/{hh[2:4]}/{hh}/part_{part_idx:08d}.bmp *)
Definition bitmap_path (root hh : string) (part_idx : nat) : string :=
  root +:+ "/bitmap/" +:+ String.substring 0 2 hh +:+ "/"
       +:+ String.substring 2 2 hh
       +:+ "/" +:+ hh +:+ "/part_" +:+ dec8 part_idx +:+ ".bmp".

(** Modelled from the spec: [fs_layout::data_path] of fs_layout.h, which is
    not among the sources:
    {root}/data/{hh[0:2]}/{hh[2:4]}/{hh}/part_{part_idx:08d} *)
Definition data_path (root hh : string) (part_idx : nat) : string :=
  root +:+ "/data/" +:+ String.substring 0 2 hh +:+ "/"
       +:+ String.substring 2 2 hh
       +:+ "/" +:+ hh +:+ "/part_" +:+ dec8 part_idx.

End Layout.

(** ** The store *)

(** Modelled from the spec: [struct CacheMetadata] of metadata_store.h, which
    is not among the sources; the fields are those [get] and [put] use, [size]
    an unsigned 64-bit integer and the two [std::time_t] signed 64-bit. *)
Record CacheMetadata := Meta {
  path : string;
  local_path : string;
  size : Z;
  timestamp : Z;
  last_accessed : Z;
  dirty : bool
}.

(** The values of the integer fields lie in their types, and the two
    strings are paths (no embedded terminator). *)
Record wf_meta (m : CacheMetadata) : Prop := WfMeta {
  wf_path : cstring (path m);
  wf_local_path : cstring (local_path m);
  wf_size : (0 ≤ size m < 2 ^ 64)%Z;
  wf_timestamp : (- 2 ^ 63 ≤ timestamp m < 2 ^ 63)%Z;
  wf_last_accessed : (- 2 ^ 63 ≤ last_accessed m < 2 ^ 63)%Z
}.

(** The object together with the part of the world it acts on: the table
    behind [db_handle_], the member [bitmap_] (hash_hex to part_idx to bit
    vector) and the files of the host. *)
Record state := State {
  cache_root_ : string;
  db : Sqlite.table;
  bitmap_ : gmap string (gmap nat BitVec);
  disk : Host.files
}.

Definition with_db (st : state) (t : Sqlite.table) : state :=
  State (cache_root_ st) t (bitmap_ st) (disk st).
Definition with_bitmap (st : state) (m : gmap string (gmap nat BitVec))
  : state :=
  State (cache_root_ st) (db st) m (disk st).
Definition with_disk (st : state) (fs : Host.files) : state :=
  State (cache_root_ st) (db st) (bitmap_ st) fs.

(** The vector [bitmap_[hash_hex][part_idx]] refers to; absent entries are
    default-constructed, so empty. *)
Definition bitmap_at (m : gmap string (gmap nat BitVec)) (hash_hex : string)
    (part_idx : nat) : BitVec :=
  default [] (m !! hash_hex ≫= (.!! part_idx)).

(** Assignment through the reference [bitmap_[hash_hex][part_idx]]. *)
Definition bitmap_set (m : gmap string (gmap nat BitVec)) (hash_hex : string)
    (part_idx : nat) (v : BitVec) : gmap string (gmap nat BitVec) :=
  <[hash_hex := <[part_idx := v]> (default ∅ (m !! hash_hex))]> m.

(** The parts of an object that have a vector in memory. *)
Definition parts_of (st : state) (hash_hex : string) : gmap nat BitVec :=
  default ∅ (bitmap_ st !! hash_hex).

(** Whether block [i] of a part is marked dirty in memory. *)
Definition is_dirty_block (st : state) (hash_hex : string) (part_idx i : nat)
  : bool :=
  bit_of (bitmap_at (bitmap_ st) hash_hex part_idx) i.

Section MetadataStore.

Import Sqlite.

(** [fs_layout::bitmap_path], declared in fs_layout.h. *)
Variable bitmap_path : string → string → nat → string.

Definition get (e : engine) (st : state) (p : string)
  : option CacheMetadata :=
  if negb (is_ok (sqlite3_prepare_v2 e)) then None
  else
    match sqlite3_step e (Select (c_str p)) (db st) with
    | (SQLITE_ROW, Some r, _) =>
        Some (Meta p
                (c_str (col_local_path r))
                (size_t (int64 (col_size r)))
                (int64 (col_timestamp r))
                (int64 (col_last_accessed r))
                (negb (int32 (col_dirty r) =? 0)%Z))
    | _ => None
    end.

Definition put (e : engine) (st : state) (meta : CacheMetadata)
  : bool * state :=
  if negb (is_ok (sqlite3_prepare_v2 e)) then (false, st)
  else
    let r := Row (c_str (local_path meta))
                 (int64 (size meta))
                 (int64 (timestamp meta))
                 (int64 (last_accessed meta))
                 (if dirty meta then 1%Z else 0%Z) in
    let '(code, _, t) := sqlite3_step e (Upsert (c_str (path meta)) r) (db st) in
    (is_done code, with_db st t).

Definition updateAccessTime (e : engine) (st : state) (p : string)
    (t_access : Z) : bool * state :=
  if negb (is_ok (sqlite3_prepare_v2 e)) then (false, st)
  else
    let '(code, _, t) :=
      sqlite3_step e (UpdateLastAccessed (int64 t_access) (c_str p)) (db st) in
    (is_done code, with_db st t).

Definition markDirty (e : engine) (st : state) (p : string) (d : bool)
  : bool * state :=
  if negb (is_ok (sqlite3_prepare_v2 e)) then (false, st)
  else
    let '(code, _, t) :=
      sqlite3_step e (UpdateDirty (if d then 1%Z else 0%Z) (c_str p)) (db st) in
    (is_done code, with_db st t).

Definition remove (e : engine) (st : state) (p : string) : bool * state :=
  if negb (is_ok (sqlite3_prepare_v2 e)) then (false, st)
  else
    let '(code, _, t) := sqlite3_step e (Delete (c_str p)) (db st) in
    (is_done code, with_db st t).

(** [auto& vec = bitmap_[hash_hex][part_idx]], the resize when the vector
    is too short, and [vec[block_idx] = true]. *)
Definition markDirtyBlock (st : state) (hash_hex : string)
    (part_idx block_idx : nat) : state :=
  let vec := bitmap_at (bitmap_ st) hash_hex part_idx in
  let vec :=
    if length vec <=? block_idx then vec_resize (block_idx + 1) vec
    else vec in
  with_bitmap st
    (bitmap_set (bitmap_ st) hash_hex part_idx (<[block_idx := true]> vec)).

(** [fs::create_directories] of the parent directory is taken on its normal
    return: directories are not part of [Host.files], and its failure is an
    exception, outside the boolean results modelled here. *)
Definition persistBitmap (h : Host.env) (st : state) (hash_hex : string)
    (part_idx : nat) (bits : BitVec) : bool * state :=
  if bool_decide (bits = []) then (true, st)
  else
    let file := bitmap_path (cache_root_ st) hash_hex part_idx in
    let bytes := Pack.pack bits in
    if Host.open_write_fails h file then (false, st)
    else
      let '(n, fs) := Host.write h file bytes (Host.open_trunc file (disk st)) in
      ((n =? Z.of_nat (length bytes))%Z, with_disk st fs).

(** One iteration of the loop of [flushBitmaps]:
    [ok &= persistBitmap(hash_hex, part_idx, bits)]. *)
Definition flush_step (h : Host.env) (hash_hex : string)
    (acc : bool * state) (entry : nat * BitVec) : bool * state :=
  let '(r, st) := persistBitmap h acc.2 hash_hex entry.1 entry.2 in
  (acc.1 && r, st).

(** The loop visits the entries in the order of [map_to_list]; the lemmas
    about the loop are stated for any list of entries. *)
Definition flushBitmaps (h : Host.env) (st : state) (hash_hex : string)
  : bool * state :=
  match bitmap_ st !! hash_hex with
  | None => (true, st)
  | Some parts => foldl (flush_step h hash_hex) (true, st) (map_to_list parts)
  end.

(** [fs::exists(path)] is the presence of the file and
    [fs::file_size(path)] the length of its content. *)
Definition loadBitmap (h : Host.env) (st : state) (hash_hex : string)
    (part_idx : nat) : bool * state :=
  let file := bitmap_path (cache_root_ st) hash_hex part_idx in
  match disk st !! file with
  | None => (true, st)
  | Some content =>
      if Host.open_read_fails h file then (false, st)
      else
        let '(n, bytes) :=
          Host.pread h file ((length content + 7) / 8) (disk st) in
        if (n <? 0)%Z then (false, st)
        else
          let vec := bitmap_at (bitmap_ st) hash_hex part_idx in
          (true,
           with_bitmap st
             (bitmap_set (bitmap_ st) hash_hex part_idx
                (Pack.unpack_into bytes vec)))
  end.

End MetadataStore.

(** A store with an empty table, nothing in memory and no file. *)
Definition empty_store (root : string) : state := State root ∅ ∅ ∅.

(** ** Concrete stores used to run the model *)

Module Demo.

Definition root : string := "/cache".

(** SHA-256 of the logical path /b.txt. *)
Definition hh : string :=
  "a8aa7e034d1a9a3b4daeef67cb95b6ac7ccb205438279a3482cd05fc1b81a3a8".

Definition fresh : state := empty_store root.

(** Block 8 of part 0 written: nine bits, the last one set. *)
Definition marked : state := markDirtyBlock fresh hh 0 8.

Definition flushed : state :=
  (flushBitmaps Layout.bitmap_path Host.reliable marked hh).2.

(** The same files seen by a new process: nothing in memory. *)
Definition restarted : state :=
  State (cache_root_ flushed) (db flushed) ∅ (disk flushed).

(** A host whose [write] takes one byte only. *)
Definition short_write : Host.env :=
  Host.Env (λ _, false) (λ _, false) (λ _, Host.Short 1)
           (λ _, Host.Complete).

(** Twenty blocks in memory, block 19 dirty, and a two-byte bitmap file
    for the same part. *)
Definition stale : state :=
  with_disk (markDirtyBlock fresh hh 0 19)
    {[Layout.bitmap_path root hh 0 := [5%Z; 0%Z]]}.

(** A part whose vector in memory is empty, as [loadBitmap] leaves it
    after reading a file of length zero. *)
Definition emptied : state :=
  (loadBitmap Layout.bitmap_path Host.reliable
     (with_disk fresh {[Layout.bitmap_path root hh 0 := []]}) hh 0).2.

Definition row : CacheMetadata :=
  Meta "/b.txt" (Layout.data_path root hh 0) 5 1700000000 1700000100 true.

End Demo.


(** ** Listing the table *)

Module Scan.

Import Sqlite.

(** The results of the successive [sqlite3_step] calls on
    SELECT path, local_path, size, timestamp, last_accessed, dirty FROM
    metadata: one SQLITE_ROW per row of the table, then SQLITE_DONE. The
    scan is cut by an error at its first step when the engine's
    [step_fault] says so, or after [k] rows when [cut] is [Some (k, c)].
    The rows come in the order of [map_to_list]; what is proved about the
    listing does not depend on the order. *)
Definition steps (e : engine) (cut : option (nat * errcode)) (t : table)
  : list (rc * option (string * row)) :=
  match step_fault e with
  | Some c => [(SQLITE_FAIL c, None)]
  | None =>
      let rows := (λ kr, (SQLITE_ROW, Some kr)) <$> map_to_list t in
      match cut with
      | Some (k, c) =>
          if k <? length rows then take k rows ++ [(SQLITE_FAIL c, None)]
          else rows ++ [(SQLITE_DONE, None)]
      | None => rows ++ [(SQLITE_DONE, None)]
      end
  end.

(** The [CacheMetadata] built from the six columns of the current row. *)
Definition entry_of (kr : string * row) : CacheMetadata :=
  Meta (c_str kr.1)
       (c_str (col_local_path kr.2))
       (size_t (int64 (col_size kr.2)))
       (int64 (col_timestamp kr.2))
       (int64 (col_last_accessed kr.2))
       (negb (int32 (col_dirty kr.2) =? 0)%Z).

(** [while (sqlite3_step(stmt) == SQLITE_ROW) { ...; entries.push_back(meta); }] *)
Fixpoint collect (results : list (rc * option (string * row)))
  : list CacheMetadata :=
  match results with
  | (SQLITE_ROW, Some kr) :: rest => entry_of kr :: collect rest
  | _ => []
  end.

End Scan.

Definition allEntries (e : Sqlite.engine) (cut : option (nat * Sqlite.errcode))
    (st : state) : list CacheMetadata :=
  if negb (Sqlite.is_ok (Sqlite.sqlite3_prepare_v2 e)) then []
  else Scan.collect (Scan.steps e cut (db st)).

(** What [put], [updateAccessTime] and [markDirty] store: text without an
    embedded terminator, 64-bit integers, and 0 or 1 for [dirty]. *)
Record row_ok (k : string) (r : Sqlite.row) : Prop := RowOk {
  ok_key : cstring k;
  ok_local_path : cstring (Sqlite.col_local_path r);
  ok_size : (- 2 ^ 63 ≤ Sqlite.col_size r < 2 ^ 63)%Z;
  ok_timestamp : (- 2 ^ 63 ≤ Sqlite.col_timestamp r < 2 ^ 63)%Z;
  ok_last_accessed : (- 2 ^ 63 ≤ Sqlite.col_last_accessed r < 2 ^ 63)%Z;
  ok_dirty : Sqlite.col_dirty r = 0%Z ∨ Sqlite.col_dirty r = 1%Z
}.

Definition table_ok (t : Sqlite.table) : Prop := map_Forall row_ok t.

(** ** Opening and closing the database *)

Module Lifecycle.

Import Sqlite.

(** The object's connection and the database file at [db_path_]:
    [db_handle_] is set or null, the file holds the table [metadata] or
    does not (yet, or any more), and [closed] counts the calls of
    [sqlite3_close]. While the connection is open the table is the [db] of
    [state]. *)
Record store := Store {
  db_handle_ : bool;
  table_ : option table;
  closed : nat
}.

(** The constructor: [db_handle_(nullptr)]. *)
Definition construct (file : option table) : store := Store false file 0.

(** [init]: [sqlite3_open], then CREATE TABLE IF NOT EXISTS metadata.
    [db_handle_] is assigned once the open succeeded, before the table is
    created. *)
Definition init (open_fault exec_fault : option errcode) (s : store)
  : bool * store :=
  match open_fault with
  | Some _ => (false, s)
  | None =>
      match exec_fault with
      | Some _ => (false, Store true (table_ s) (closed s))
      | None =>
          (true,
           Store true
             (Some match table_ s with Some t => t | None => ∅ end)
             (closed s))
      end
  end.

(** [cleanup]: DROP TABLE IF EXISTS metadata (its result is not looked
    at), [sqlite3_close], [db_handle_ = nullptr]; nothing on a null
    handle. *)
Definition cleanup (exec_fault : option errcode) (s : store) : store :=
  if db_handle_ s then
    Store false
      (match exec_fault with Some _ => table_ s | None => None end)
      (S (closed s))
  else s.

(** The destructor: [if (db_handle_) sqlite3_close(...)]. *)
Definition destroy (s : store) : store :=
  if db_handle_ s then Store true (table_ s) (S (closed s)) else s.

End Lifecycle.

(** ** Further stores used to run the model *)

Module Sample.

Definition row2 : CacheMetadata :=
  Meta "/dir/c.txt" (Layout.data_path Demo.root Demo.hh 1) 70000
       1700000200 1700000300 false.

(** Two rows put into the empty table. *)
Definition two_rows : state :=
  (put Sqlite.healthy (put Sqlite.healthy Demo.fresh Demo.row).2 row2).2.

(** A host on which [open] for reading fails. *)
Definition unreadable : Host.env :=
  Host.Env (λ _, true) (λ _, false) (λ _, Host.Complete)
           (λ _, Host.Complete).

(** A host on which [write] fails. *)
Definition write_error : Host.env :=
  Host.Env (λ _, false) (λ _, false) (λ _, Host.Fails)
           (λ _, Host.Complete).

(** Blocks 3 and 70 of part 0 and block 1 of part 2 written. *)
Definition three_marks : state :=
  markDirtyBlock (markDirtyBlock (markDirtyBlock Demo.fresh Demo.hh 0 3)
                    Demo.hh 0 70) Demo.hh 2 1.

End Sample.

(** * The layout names distinct files for distinct parts *)

Section LayoutFacts.

Import Layout.

Lemma string_app_cons (c : Ascii.ascii) (s t : string) :
  String c s +:+ t = String c (s +:+ t).
Proof. reflexivity. Qed.

Lemma string_length_app (s t : string) :
  String.length (s +:+ t) = String.length s + String.length t.
Proof.
  induction s as [|c s IH]; [done|].
  rewrite string_app_cons. cbn. by rewrite IH.
Qed.

Lemma string_app_inv_tail (s1 s2 t : string) :
  s1 +:+ t = s2 +:+ t → s1 = s2.
Proof.
  revert s2. induction s1 as [|c s1 IH]; intros [|c2 s2] H.
  - done.
  - apply (f_equal String.length) in H.
    rewrite !string_length_app in H. cbn in H. lia.
  - apply (f_equal String.length) in H.
    rewrite !string_length_app in H. cbn in H. lia.
  - rewrite !string_app_cons in H. injection H as -> H.
    by rewrite (IH s2 H).
Qed.

Lemma uint_of_zeros (k : nat) (s : string) :
  NilEmpty.uint_of_string (zeros k +:+ s)
  = Nat.iter k Decimal.D0 <$> NilEmpty.uint_of_string s.
Proof.
  induction k as [|k IH].
  - change (zeros 0 +:+ s) with s. by destruct (NilEmpty.uint_of_string s).
  - change (zeros (S k) +:+ s) with (String char_0 (zeros k +:+ s)).
    cbn. rewrite IH. by destruct (NilEmpty.uint_of_string s).
Qed.

Lemma of_uint_zeros (k : nat) (d : Decimal.uint) :
  Nat.of_uint (Nat.iter k Decimal.D0 d) = Nat.of_uint d.
Proof. induction k as [|k IH]; [done|]. exact IH. Qed.

Lemma read_dec_dec8 (n : nat) : read_dec (dec8 n) = Some n.
Proof.
  unfold read_dec, dec8, pad8.
  rewrite uint_of_zeros, NilEmpty.usu. cbn.
  by rewrite of_uint_zeros, DecimalNat.Unsigned.of_to.
Qed.

Lemma dec8_inj (n m : nat) : dec8 n = dec8 m → n = m.
Proof.
  intros H. apply (f_equal read_dec) in H.
  rewrite !read_dec_dec8 in H. by injection H.
Qed.

(** For one root and one object, the bitmap file determines the part. *)
Lemma bitmap_path_inj (root hh : string) (p q : nat) :
  bitmap_path root hh p = bitmap_path root hh q → p = q.
Proof.
  unfold bitmap_path. intros H.
  repeat apply (inj (String.app _)) in H.
  by apply dec8_inj, (string_app_inv_tail _ _ ".bmp").
Qed.

End LayoutFacts.

(** * Bit-level facts *)

Section BitFacts.

Lemma testbit_bit_mask (m : nat) (b : Z) :
  Z.testbit (bit_mask m) b = bool_decide (b = Z.of_nat m).
Proof.
  unfold bit_mask. rewrite Z.shiftl_1_l.
  destruct (Z.ltb_spec b 0) as [Hneg|Hpos].
  - rewrite Z.testbit_neg_r by done. by rewrite bool_decide_false by lia.
  - rewrite Z.pow2_bits_eqb by lia.
    destruct (Z.eqb_spec (Z.of_nat m) b) as [<-|Hne].
    + by rewrite bool_decide_true.
    + by rewrite bool_decide_false.
Qed.

Lemma land_bit_mask (x : Z) (m : nat) :
  Z.land x (bit_mask m) ≠ 0%Z ↔ Z.testbit x (Z.of_nat m) = true.
Proof.
  split.
  - intros Hnz. destruct (Z.testbit x (Z.of_nat m)) eqn:Hb; [done|].
    exfalso. apply Hnz, Z.bits_inj'. intros b _.
    rewrite Z.land_spec, testbit_bit_mask, Z.bits_0.
    case_bool_decide; subst; [by rewrite Hb | apply andb_false_r].
  - intros Hb Hz.
    assert (Z.testbit (Z.land x (bit_mask m)) (Z.of_nat m) = true) as Hc.
    { rewrite Z.land_spec, Hb, testbit_bit_mask. by rewrite bool_decide_true. }
    rewrite Hz, Z.bits_0 in Hc. done.
Qed.

Lemma testbit_uint8 (x b : Z) :
  Z.testbit (uint8 x) b = bool_decide (b < 8)%Z && Z.testbit x b.
Proof.
  unfold uint8. change 256%Z with (2 ^ 8)%Z.
  destruct (Z.ltb_spec b 0).
  - rewrite !Z.testbit_neg_r by done. apply eq_sym, andb_false_r.
  - rewrite Z.testbit_mod_pow2 by lia.
    case_bool_decide as Hlt.
    + by rewrite (proj2 (Z.ltb_lt _ _) Hlt).
    + by rewrite (proj2 (Z.ltb_ge _ _)) by lia.
Qed.

End BitFacts.

(** * The packed form of a bit vector *)

Section PackFacts.

Import Pack.

Lemma bit_of_total (bits : BitVec) (i : nat) :
  i < length bits → bits !!! i = bit_of bits i.
Proof.
  intros Hi. unfold bit_of. rewrite list_lookup_total_alt.
  destruct (lookup_lt_is_Some_2 bits i Hi) as [x ->]. done.
Qed.

Lemma bit_of_ge (bits : BitVec) (i : nat) :
  length bits ≤ i → bit_of bits i = false.
Proof. intros Hi. unfold bit_of. by rewrite lookup_ge_None_2. Qed.

Lemma pack_upto_spec (bits : BitVec) (k : nat) :
  k ≤ length bits →
  length (pack_upto bits k) = (length bits + 7) / 8 ∧
  ∀ (q : nat) (b : Z), q < (length bits + 7) / 8 →
    Z.testbit (pack_upto bits k !!! q) b
    = bool_decide (0 ≤ b < 8)%Z
      && bool_decide (q * 8 + Z.to_nat b < k)
      && bit_of bits (q * 8 + Z.to_nat b).
Proof.
  induction k as [|k IH]; intros Hk.
  - unfold pack_upto. cbn [seq foldl].
    split; [by rewrite length_replicate|].
    intros q b Hq. rewrite lookup_total_replicate_2 by done.
    rewrite Z.bits_0, (bool_decide_false (_ < 0)) by lia.
    by rewrite andb_false_r.
  - destruct IH as [Hlen Hbits]; [lia|].
    unfold pack_upto in *.
    rewrite seq_S, foldl_snoc. cbn [plus].
    set (B := foldl _ _ _) in *.
    pose proof (Nat.div_mod_eq k 8) as Hdm.
    pose proof (Nat.mod_upper_bound k 8 ltac:(done)) as Hm.
    pose proof (Nat.div_mod_eq (length bits + 7) 8) as Hdn.
    pose proof (Nat.mod_upper_bound (length bits + 7) 8 ltac:(done)) as Hmn.
    unfold pack_step. rewrite bit_of_total by lia.
    destruct (bit_of bits k) eqn:Hbk.
    + unfold or_bit. split; [by rewrite length_insert|].
      intros q b Hq. destruct (decide (q = k / 8)) as [->|Hne].
      * rewrite list_lookup_total_insert_eq by lia.
        rewrite testbit_uint8, Z.lor_spec, Hbits, testbit_bit_mask by done.
        repeat case_bool_decide; cbn [andb orb];
          rewrite ?orb_false_r, ?orb_true_r; try lia; try done.
        replace (k `div` 8 * 8 + Z.to_nat b) with k by lia.
        by rewrite Hbk.
      * rewrite list_lookup_total_insert_ne by done.
        rewrite Hbits by done.
        repeat case_bool_decide; cbn [andb]; try lia; done.
    + split; [done|]. intros q b Hq. rewrite Hbits by done.
      repeat case_bool_decide; cbn [andb]; try lia; try done.
      replace (q * 8 + Z.to_nat b) with k by lia. by rewrite Hbk.
Qed.

Lemma length_pack (bits : BitVec) :
  length (pack bits) = (length bits + 7) / 8.
Proof. by apply (pack_upto_spec bits (length bits)). Qed.

(** Bit [b] of byte [q] of the packed form is bit [q * 8 + b] of the
    vector, and the padding bits of the last byte are zero. *)
Lemma testbit_pack (bits : BitVec) (q : nat) (b : Z) :
  q < (length bits + 7) / 8 →
  Z.testbit (pack bits !!! q) b
  = bool_decide (0 ≤ b < 8)%Z && bit_of bits (q * 8 + Z.to_nat b).
Proof.
  intros Hq.
  destruct (pack_upto_spec bits (length bits) ltac:(done)) as [_ H].
  unfold pack. rewrite H by done.
  destruct (decide (q * 8 + Z.to_nat b < length bits)).
  - by rewrite (bool_decide_true (_ < _)), andb_true_r by done.
  - rewrite bit_of_ge by lia. by rewrite !andb_false_r.
Qed.

Lemma pack_byte_range (bits : BitVec) (q : nat) :
  q < (length bits + 7) / 8 → (0 ≤ pack bits !!! q < 256)%Z.
Proof.
  intros Hq. change 256%Z with (2 ^ 8)%Z.
  assert (pack bits !!! q = uint8 (pack bits !!! q)) as ->.
  { apply Z.bits_inj'. intros b _.
    rewrite testbit_uint8, testbit_pack by done.
    repeat case_bool_decide; cbn [andb]; try lia; done. }
  apply Z.mod_pos_bound. done.
Qed.

End PackFacts.

(** * Expanding a byte buffer into a bit vector *)

Section UnpackFacts.

Import Pack.

Lemma bool_decide_land_mask (x : Z) (m : nat) :
  bool_decide (Z.land x (bit_mask m) ≠ 0%Z) = Z.testbit x (Z.of_nat m).
Proof.
  destruct (Z.testbit x (Z.of_nat m)) eqn:Hb.
  - apply bool_decide_eq_true, land_bit_mask, Hb.
  - apply bool_decide_eq_false. rewrite land_bit_mask, Hb. done.
Qed.

(** The inner loop after [m] of its eight iterations. *)
Lemma load_byte_upto (bytes : list Z) (i : nat) (v : BitVec) (m : nat) :
  i * 8 + m ≤ length v →
  length (foldl (load_bit bytes i) v (seq 0 m)) = length v ∧
  ∀ j, foldl (load_bit bytes i) v (seq 0 m) !! j
       = if decide (i * 8 ≤ j < i * 8 + m)
         then Some (Z.testbit (bytes !!! i) (Z.of_nat (j - i * 8)))
         else v !! j.
Proof.
  induction m as [|m IH]; intros Hlen.
  - split; [done|]. intros j. case_decide; [lia|done].
  - destruct IH as [IHlen IHbits]; [lia|].
    rewrite seq_S, foldl_snoc. cbn [plus]. unfold load_bit at 1 3.
    split; [by rewrite length_insert|].
    intros j. destruct (decide (j = i * 8 + m)) as [->|Hne].
    + rewrite list_lookup_insert_eq by lia.
      rewrite decide_True by lia. rewrite bool_decide_land_mask.
      do 3 f_equal. lia.
    + rewrite list_lookup_insert_ne by done. rewrite IHbits.
      repeat case_decide; try lia; done.
Qed.

(** The outer loop after [k] bytes. *)
Lemma load_bytes_upto (bytes : list Z) (v : BitVec) (k : nat) :
  k * 8 ≤ length v →
  length (foldl (load_byte bytes) v (seq 0 k)) = length v ∧
  ∀ j, foldl (load_byte bytes) v (seq 0 k) !! j
       = if decide (j < k * 8)
         then Some (Z.testbit (bytes !!! (j / 8)) (Z.of_nat (j mod 8)))
         else v !! j.
Proof.
  induction k as [|k IH]; intros Hlen.
  - split; [done|]. intros j. case_decide; [lia|done].
  - destruct IH as [IHlen IHbits]; [lia|].
    rewrite seq_S, foldl_snoc. cbn [plus]. unfold load_byte at 1 3.
    destruct (load_byte_upto bytes k (foldl (load_byte bytes) v (seq 0 k)) 8)
      as [Hl Hb]; [lia|].
    split; [lia|].
    intros j. rewrite Hb, IHbits.
    pose proof (Nat.div_mod_eq j 8). 
    pose proof (Nat.mod_upper_bound j 8 ltac:(done)).
    repeat case_decide; try lia; try done.
    replace (j / 8) with k by lia. do 3 f_equal. lia.
Qed.

Lemma length_decode (bytes : list Z) :
  length (decode bytes) = length bytes * 8.
Proof. unfold decode. by rewrite length_fmap, length_seq. Qed.

Lemma lookup_decode (bytes : list Z) (j : nat) :
  j < length bytes * 8 →
  decode bytes !! j
  = Some (Z.testbit (bytes !!! (j / 8)) (Z.of_nat (j mod 8))).
Proof.
  intros Hj. unfold decode.
  by rewrite list_lookup_fmap, lookup_seq_lt by done.
Qed.

(** The vector [loadBitmap] leaves does not depend on the one it found. *)
Lemma unpack_into_decode (bytes : list Z) (vec : BitVec) :
  unpack_into bytes vec = decode bytes.
Proof.
  unfold unpack_into, vec_resize.
  destruct (load_bytes_upto bytes (resize (length bytes * 8) false vec)
              (length bytes)) as [Hl Hb].
  { by rewrite length_resize. }
  rewrite length_resize in Hl.
  apply list_eq. intros j. rewrite Hb.
  case_decide as Hj.
  - by rewrite lookup_decode.
  - rewrite !lookup_ge_None_2; [done| |]; 
      rewrite ?length_decode, ?length_resize; lia.
Qed.

End UnpackFacts.

(** * Packing then expanding *)

Section PackDecode.

Import Pack.

Lemma lookup_resize_bit (bits : BitVec) (n j : nat) :
  j < n → resize n false bits !! j = Some (bit_of bits j).
Proof.
  intros Hj. unfold bit_of. destruct (decide (j < length bits)).
  - rewrite lookup_resize by done.
    by destruct (lookup_lt_is_Some_2 bits j) as [x ->].
  - rewrite lookup_resize_new by lia. by rewrite lookup_ge_None_2 by lia.
Qed.

(** Expanding the first [m] bytes of the packed form gives the first
    [m * 8] bits of the vector, zero-filled past its end. *)
Lemma decode_take_pack (bits : BitVec) (m : nat) :
  m ≤ (length bits + 7) / 8 →
  decode (take m (pack bits)) = resize (m * 8) false bits.
Proof.
  intros Hm.
  assert (length (take m (pack bits)) = m) as Hlen.
  { rewrite length_take, length_pack. lia. }
  apply list_eq. intros j. destruct (decide (j < m * 8)) as [Hj|Hj].
  - rewrite lookup_decode by lia. rewrite lookup_resize_bit by done.
    pose proof (Nat.div_mod_eq j 8).
    pose proof (Nat.mod_upper_bound j 8 ltac:(done)).
    rewrite lookup_total_take_lt by lia. rewrite testbit_pack by lia.
    rewrite bool_decide_true by lia. cbn [andb].
    do 2 f_equal. lia.
  - rewrite !lookup_ge_None_2; [done| |];
      rewrite ?length_decode, ?length_resize; lia.
Qed.

Lemma decode_pack (bits : BitVec) :
  decode (pack bits) = resize ((length bits + 7) / 8 * 8) false bits.
Proof.
  rewrite <- (decode_take_pack bits ((length bits + 7) / 8)) by done.
  by rewrite take_ge by (rewrite length_pack; lia).
Qed.

End PackDecode.

(** * Persisting bitmaps *)

Section PersistFacts.

Variable bitmap_path : string → string → nat → string.

(** [persistBitmap] on a vector with at least one block, call by call. *)
Lemma persistBitmap_nonempty h st hash_hex part_idx bits :
  bits ≠ [] →
  persistBitmap bitmap_path h st hash_hex part_idx bits
  = let file := bitmap_path (cache_root_ st) hash_hex part_idx in
    if Host.open_write_fails h file then (false, st)
    else
      match Host.moved (Host.write_ends h file) (length (Pack.pack bits)) with
      | None => (false, with_disk st (<[file := []]> (disk st)))
      | Some n =>
          ((Z.of_nat n =? Z.of_nat (length (Pack.pack bits)))%Z,
           with_disk st (<[file := take n (Pack.pack bits)]> (disk st)))
      end.
Proof.
  intros Hne. unfold persistBitmap, Host.write, Host.open_trunc.
  rewrite bool_decide_false by done. cbn zeta.
  destruct (Host.open_write_fails h _); [done|].
  destruct (Host.moved _ _) as [n|].
  - rewrite lookup_insert_eq, insert_insert_eq. done.
  - f_equal. apply Z.eqb_neq. lia.
Qed.

(** The table, the root and the bitmaps in memory are not touched. *)
Lemma persistBitmap_frame h st hash_hex part_idx bits :
  let st' := (persistBitmap bitmap_path h st hash_hex part_idx bits).2 in
  cache_root_ st' = cache_root_ st ∧ db st' = db st
  ∧ bitmap_ st' = bitmap_ st.
Proof.
  destruct (decide (bits = [])) as [->|Hne]; [done|].
  rewrite persistBitmap_nonempty by done. cbn zeta.
  destruct (Host.open_write_fails h _); [done|].
  by destruct (Host.moved _ _).
Qed.

(** Whether a part is persisted depends on the host and on the vector,
    not on the files already there. *)
Lemma persistBitmap_result_indep h st1 st2 hash_hex part_idx bits :
  cache_root_ st1 = cache_root_ st2 →
  (persistBitmap bitmap_path h st1 hash_hex part_idx bits).1
  = (persistBitmap bitmap_path h st2 hash_hex part_idx bits).1.
Proof.
  intros Hroot. destruct (decide (bits = [])) as [->|Hne]; [done|].
  rewrite !persistBitmap_nonempty by done. cbn zeta. rewrite Hroot.
  destruct (Host.open_write_fails h _); [done|].
  by destruct (Host.moved _ _).
Qed.

(** The loop of [flushBitmaps] over the parts [l]. *)
Lemma flush_loop_spec h hash_hex l ok st :
  let r := foldl (flush_step bitmap_path h hash_hex) (ok, st) l in
  cache_root_ r.2 = cache_root_ st ∧ db r.2 = db st
  ∧ bitmap_ r.2 = bitmap_ st
  ∧ (r.1 = true ↔
     ok = true
     ∧ Forall (λ e, (persistBitmap bitmap_path h st hash_hex e.1 e.2).1 = true) l).
Proof.
  revert ok st. induction l as [|[p bits] l IH]; intros ok st; cbn zeta.
  - cbn. repeat split; try done. by intros [? _].
  - cbn [foldl]. unfold flush_step at 2 4 6 8. cbn [fst snd].
    destruct (persistBitmap bitmap_path h st hash_hex p bits)
      as [r st1] eqn:Hp.
    pose proof (persistBitmap_frame h st hash_hex p bits) as Hf.
    rewrite Hp in Hf. cbn in Hf. destruct Hf as (Hroot & Hdb & Hbm).
    destruct (IH (ok && r) st1) as (Hr1 & Hr2 & Hr3 & Hiff).
    rewrite Hr1, Hr2, Hr3, Hiff, Forall_cons, andb_true_iff.
    cbn [fst snd]. rewrite Hp. cbn [fst].
    assert (Forall (λ e, (persistBitmap bitmap_path h st1 hash_hex e.1 e.2).1 = true) l
            ↔ Forall (λ e, (persistBitmap bitmap_path h st hash_hex e.1 e.2).1 = true) l)
      as ->.
    { apply Forall_proper; [|done]. intros [q qb]. cbn [fst snd].
      by rewrite (persistBitmap_result_indep h st1 st). }
    tauto.
Qed.

Lemma persistBitmap_empty h st hash_hex part_idx :
  persistBitmap bitmap_path h st hash_hex part_idx [] = (true, st).
Proof. done. Qed.

(** Success of [persistBitmap] read off the host: the file was opened
    and [write] took every byte. *)
Lemma persistBitmap_true_iff h st hash_hex part_idx bits :
  (persistBitmap bitmap_path h st hash_hex part_idx bits).1 = true ↔
  bits = []
  ∨ Host.open_write_fails h (bitmap_path (cache_root_ st) hash_hex part_idx)
    = false
    ∧ Host.moved
        (Host.write_ends h (bitmap_path (cache_root_ st) hash_hex part_idx))
        (length (Pack.pack bits))
      = Some (length (Pack.pack bits)).
Proof.
  destruct (decide (bits = [])) as [->|Hne]; [by split; [left|]|].
  rewrite persistBitmap_nonempty by done. cbn zeta.
  destruct (Host.open_write_fails h _);
    [by split; [|intros [?|[? _]]]|].
  destruct (Host.moved _ _) as [n|]; cbn [fst];
    [|by split; [|intros [?|[_ ?]]]].
  rewrite Z.eqb_eq. split.
  - intros Hn. right. split; [done|]. f_equal. lia.
  - intros [?|[_ [= ->]]]; done.
Qed.

Lemma flushBitmaps_frame h st hash_hex :
  let st' := (flushBitmaps bitmap_path h st hash_hex).2 in
  cache_root_ st' = cache_root_ st ∧ db st' = db st
  ∧ bitmap_ st' = bitmap_ st.
Proof.
  unfold flushBitmaps. destruct (bitmap_ st !! hash_hex) as [parts|]; [|done].
  destruct (flush_loop_spec h hash_hex (map_to_list parts) true st)
    as (? & ? & ? & _).
  done.
Qed.

(** What a successful [persistBitmap] leaves in the file. *)
Lemma persisted_bitmap_content h st hash_hex part_idx bits st' :
  bits ≠ [] →
  persistBitmap bitmap_path h st hash_hex part_idx bits = (true, st') →
  disk st' !! bitmap_path (cache_root_ st) hash_hex part_idx
  = Some (Pack.pack bits).
Proof.
  intros Hne Hp. rewrite persistBitmap_nonempty in Hp by done.
  cbn zeta in Hp.
  destruct (Host.open_write_fails h _); [done|].
  destruct (Host.moved _ _) as [n|]; [|done].
  injection Hp as Hn <-. apply Z.eqb_eq in Hn.
  assert (n = length (Pack.pack bits)) as -> by lia.
  rewrite firstn_all. unfold with_disk. cbn [disk].
  apply lookup_insert_eq.
Qed.

(** C2: a persisted bitmap of n blocks is a file of ceil(n/8) bytes in
    which block i is bit (i mod 8) of byte i/8: the byte and-ed with
    1 << (i mod 8) is non-zero exactly when block i is set. *)
Theorem persisted_bitmap_layout h st hash_hex part_idx bits st' :
  bits ≠ [] →
  persistBitmap bitmap_path h st hash_hex part_idx bits = (true, st') →
  ∃ bytes : list Z,
    disk st' !! bitmap_path (cache_root_ st) hash_hex part_idx = Some bytes
    ∧ length bytes = (length bits + 7) / 8
    ∧ length bits ≤ 8 * length bytes < length bits + 8
    ∧ ∀ i, i < length bits →
        Z.land (bytes !!! (i / 8)) (Z.shiftl 1 (Z.of_nat (i mod 8))) ≠ 0%Z
        ↔ bits !! i = Some true.
Proof.
  intros Hne Hp. exists (Pack.pack bits).
  split; [by eapply persisted_bitmap_content|].
  pose proof (length_pack bits) as Hlen.
  pose proof (Nat.div_mod_eq (length bits + 7) 8).
  pose proof (Nat.mod_upper_bound (length bits + 7) 8 ltac:(done)).
  split; [done|]. split; [lia|].
  intros i Hi.
  pose proof (Nat.div_mod_eq i 8).
  pose proof (Nat.mod_upper_bound i 8 ltac:(done)).
  change (Z.shiftl 1 (Z.of_nat (i mod 8))) with (bit_mask (i mod 8)).
  rewrite land_bit_mask.
  rewrite testbit_pack by lia. rewrite bool_decide_true by lia.
  cbn [andb]. replace (i / 8 * 8 + Z.to_nat (Z.of_nat (i mod 8))) with i by lia.
  unfold bit_of. by destruct (bits !! i) as [[]|].
Qed.

(** C3: a call of flush_bitmaps that reports failure leaves every
    bitmap in memory as it was. *)
Theorem flushBitmaps_failure_keeps_bitmaps h st hash_hex st' :
  flushBitmaps bitmap_path h st hash_hex = (false, st') →
  bitmap_ st' = bitmap_ st.
Proof.
  intros Hf. pose proof (flushBitmaps_frame h st hash_hex) as Hfr.
  rewrite Hf in Hfr. apply Hfr.
Qed.


(** A part's file is the only one [persistBitmap] touches. *)
Lemma persistBitmap_disk_other h st hash_hex part_idx bits f :
  bitmap_path (cache_root_ st) hash_hex part_idx ≠ f →
  disk (persistBitmap bitmap_path h st hash_hex part_idx bits).2 !! f
  = disk st !! f.
Proof.
  intros Hf. destruct (decide (bits = [])) as [->|Hne]; [done|].
  rewrite persistBitmap_nonempty by done. cbn zeta.
  destruct (Host.open_write_fails h _); [done|].
  destruct (Host.moved _ _); unfold with_disk; cbn [snd disk];
    by rewrite lookup_insert_ne.
Qed.

(** The loop leaves alone every file that is not the file of a part with
    a non-empty vector. *)
Lemma flush_loop_disk_other h hash_hex l ok st f :
  (∀ p bits, (p, bits) ∈ l → bits ≠ [] →
     bitmap_path (cache_root_ st) hash_hex p ≠ f) →
  disk (foldl (flush_step bitmap_path h hash_hex) (ok, st) l).2 !! f
  = disk st !! f.
Proof.
  revert ok st. induction l as [|[p bits] l IH]; intros ok st Hne; [done|].
  cbn [foldl]. unfold flush_step at 2. cbn [fst snd].
  pose proof (persistBitmap_frame h st hash_hex p bits) as (Hroot & _ & _).
  pose proof (persistBitmap_disk_other h st hash_hex p bits f) as Hother.
  destruct (persistBitmap bitmap_path h st hash_hex p bits) as [r st1] eqn:Hp.
  cbn [snd] in Hroot, Hother. rewrite IH.
  - destruct (decide (bits = [])) as [->|Hb].
    + rewrite persistBitmap_empty in Hp. by injection Hp as _ <-.
    + apply Hother, (Hne p bits); [left|done].
  - intros q qb Hin Hqb. rewrite Hroot. apply (Hne q qb); [by right|done].
Qed.

(** After a loop that reports success, the file of each part with a
    non-empty vector holds the packed vector, when no other part of the
    loop shares the file. *)
Lemma flush_loop_disk_written h hash_hex l ok st p bits :
  NoDup l.*1 →
  (∀ q, q ∈ l.*1 →
     bitmap_path (cache_root_ st) hash_hex q
     = bitmap_path (cache_root_ st) hash_hex p → q = p) →
  (p, bits) ∈ l → bits ≠ [] →
  (foldl (flush_step bitmap_path h hash_hex) (ok, st) l).1 = true →
  disk (foldl (flush_step bitmap_path h hash_hex) (ok, st) l).2
    !! bitmap_path (cache_root_ st) hash_hex p
  = Some (Pack.pack bits).
Proof.
  revert ok st. induction l as [|[p0 b0] l IH]; intros ok st Hnd Hinj Hin Hb Hok.
  { by apply elem_of_nil in Hin. }
  cbn [fmap list_fmap fst] in Hnd. apply NoDup_cons in Hnd as [Hp0 Hnd].
  cbn [foldl] in *. unfold flush_step at 2 in Hok. unfold flush_step at 2.
  cbn [fst snd] in *.
  pose proof (persistBitmap_frame h st hash_hex p0 b0) as (Hroot & _ & _).
  pose proof (persisted_bitmap_content h st hash_hex p0 b0) as Hcontent.
  destruct (persistBitmap bitmap_path h st hash_hex p0 b0) as [r st1] eqn:Hp.
  cbn [snd] in Hroot.
  destruct (flush_loop_spec h hash_hex l (ok && r) st1) as (_ & _ & _ & Hiff).
  pose proof (proj1 (proj1 Hiff Hok)) as Hr.
  apply andb_true_iff in Hr as [_ ->].
  apply elem_of_cons in Hin as [[= -> ->]|Hin].
  - rewrite <- Hroot. rewrite flush_loop_disk_other.
    + rewrite Hroot. by apply Hcontent.
    + intros q qb Hq _ Heq. rewrite Hroot in Heq.
      apply Hinj in Heq; [|right; apply list_elem_of_fmap; by exists (q, qb)].
      subst q. apply Hp0, list_elem_of_fmap. by exists (p0, qb).
  - rewrite <- Hroot. apply IH; try done.
    intros q Hq. rewrite Hroot. intros Heq. apply Hinj; [by right|done].
Qed.

(** After a flush that reports success, the file of each part with a
    non-empty vector holds the packed vector. *)
Lemma flushBitmaps_disk_written h st hash_hex part_idx bits st1 :
  (∀ q, bitmap_path (cache_root_ st) hash_hex q
        = bitmap_path (cache_root_ st) hash_hex part_idx → q = part_idx) →
  parts_of st hash_hex !! part_idx = Some bits → bits ≠ [] →
  flushBitmaps bitmap_path h st hash_hex = (true, st1) →
  disk st1 !! bitmap_path (cache_root_ st) hash_hex part_idx
  = Some (Pack.pack bits).
Proof.
  intros Hinj Hin Hb Hf. unfold flushBitmaps, parts_of in *.
  destruct (bitmap_ st !! hash_hex) as [parts|]; cbn [default] in Hin;
    [|by rewrite lookup_empty in Hin].
  pose proof (flush_loop_disk_written h hash_hex (map_to_list parts) true st
                part_idx bits) as Hw.
  rewrite Hf in Hw. apply Hw; try done.
  - apply NoDup_fst_map_to_list.
  - intros q _. apply Hinj.
  - by apply elem_of_map_to_list.
Qed.

Lemma flush_loop_all_empty h hash_hex l st :
  Forall (λ e : nat * BitVec, e.2 = []) l →
  foldl (flush_step bitmap_path h hash_hex) (true, st) l = (true, st).
Proof.
  induction 1 as [|[p bits] l Hb _ IH]; [done|].
  cbn in Hb. subst bits. cbn [foldl]. exact IH.
Qed.

(** C10: flush_bitmaps returns true and leaves the files as they are when
    the object has no entry in memory or every vector it has is empty; an
    empty vector is skipped and counts as a success; and in any flush the
    file of a part with an empty vector is neither created nor written
    (the other parts having files of their own). *)
Theorem flushBitmaps_nothing_to_write h st hash_hex :
  (map_Forall (λ _ bits, bits = []) (parts_of st hash_hex) →
   flushBitmaps bitmap_path h st hash_hex = (true, st))
  ∧ (∀ part_idx,
       persistBitmap bitmap_path h st hash_hex part_idx [] = (true, st))
  ∧ (∀ part_idx,
       parts_of st hash_hex !! part_idx = Some [] →
       (∀ q bits, parts_of st hash_hex !! q = Some bits → bits ≠ [] →
          bitmap_path (cache_root_ st) hash_hex q
          ≠ bitmap_path (cache_root_ st) hash_hex part_idx) →
       disk (flushBitmaps bitmap_path h st hash_hex).2
         !! bitmap_path (cache_root_ st) hash_hex part_idx
       = disk st !! bitmap_path (cache_root_ st) hash_hex part_idx).
Proof.
  split; [|split; [done|]].
  - intros Hall. unfold flushBitmaps, parts_of in *.
    destruct (bitmap_ st !! hash_hex) as [parts|]; cbn [default] in *; [|done].
    apply flush_loop_all_empty. apply map_Forall_to_list in Hall.
    eapply Forall_impl; [exact Hall|]. by intros [p bits].
  - intros p _ Hpaths. unfold flushBitmaps, parts_of in *.
    destruct (bitmap_ st !! hash_hex) as [parts|]; cbn [default] in *; [|done].
    apply flush_loop_disk_other. intros q bits Hin Hb.
    apply (Hpaths q bits); [|done]. by apply elem_of_map_to_list.
Qed.

End PersistFacts.

(** * Bitmaps in memory *)

Section BitmapFacts.

Implicit Types m : gmap string (gmap nat BitVec).

Lemma bitmap_at_set m hash_hex part_idx v :
  bitmap_at (bitmap_set m hash_hex part_idx v) hash_hex part_idx = v.
Proof.
  unfold bitmap_at, bitmap_set.
  rewrite lookup_insert_eq. cbn. by rewrite lookup_insert_eq.
Qed.

Lemma lookup_bitmap_set_ne m hash_hex part_idx v h' p' :
  (h', p') ≠ (hash_hex, part_idx) →
  bitmap_set m hash_hex part_idx v !! h' ≫= (.!! p') = m !! h' ≫= (.!! p').
Proof.
  intros Hne. unfold bitmap_set.
  destruct (decide (h' = hash_hex)) as [->|Hh].
  - rewrite lookup_insert_eq. cbn.
    rewrite lookup_insert_ne by congruence.
    by destruct (m !! hash_hex).
  - by rewrite lookup_insert_ne.
Qed.




End BitmapFacts.

(** * Loading bitmaps *)

Section LoadFacts.

Variable bitmap_path : string → string → nat → string.

Lemma moved_le t count n : Host.moved t count = Some n → n ≤ count.
Proof. destruct t; cbn; intros [= <-]; lia. Qed.

Lemma length_pread_buffer h file count fs :
  length (Host.pread h file count fs).2 = count.
Proof.
  unfold Host.pread. destruct (Host.moved _ _) as [n|] eqn:Hn; cbn [snd].
  - apply moved_le in Hn.
    rewrite length_app, length_replicate, length_take. lia.
  - by rewrite length_replicate.
Qed.

(** [loadBitmap] when the file is there, call by call. *)
Lemma loadBitmap_present h st hash_hex part_idx content :
  disk st !! bitmap_path (cache_root_ st) hash_hex part_idx = Some content →
  loadBitmap bitmap_path h st hash_hex part_idx
  = let file := bitmap_path (cache_root_ st) hash_hex part_idx in
    let count := (length content + 7) / 8 in
    if Host.open_read_fails h file then (false, st)
    else
      match Host.moved (Host.pread_ends h file) count with
      | None => (false, st)
      | Some _ =>
          (true,
           with_bitmap st
             (bitmap_set (bitmap_ st) hash_hex part_idx
                (Pack.decode (Host.pread h file count (disk st)).2)))
      end.
Proof.
  intros Hfile. unfold loadBitmap. rewrite Hfile. cbn zeta.
  destruct (Host.open_read_fails h _); [done|].
  unfold Host.pread.
  destruct (Host.moved _ _) as [n|]; [|done].
  rewrite Hfile. cbn [default from_option id].
  destruct (Z.ltb_spec (Z.of_nat (length (take n content))) 0); [lia|].
  by rewrite unpack_into_decode.
Qed.

(** C6: load_bitmap on a part whose bitmap file does not exist returns
    success and changes nothing; the absent file contributes no dirty bit,
    so a part without a vector in memory has none afterwards. *)
Theorem loadBitmap_missing_file h st hash_hex part_idx :
  disk st !! bitmap_path (cache_root_ st) hash_hex part_idx = None →
  loadBitmap bitmap_path h st hash_hex part_idx = (true, st)
  ∧ (bitmap_ st !! hash_hex ≫= (.!! part_idx) = None →
     ∀ i, is_dirty_block
            (loadBitmap bitmap_path h st hash_hex part_idx).2
            hash_hex part_idx i = false).
Proof.
  intros Hfile. unfold loadBitmap. rewrite Hfile. split; [done|].
  intros Hmem i. cbn [snd]. unfold is_dirty_block, bitmap_at.
  by rewrite Hmem.
Qed.

(** C9: a successful load_bitmap on an existing file replaces the vector
    in memory by the bits decoded from the read buffer of (file_size+7)/8
    bytes, whatever the vector held; bits at indices past the decoded
    length are gone. *)
Theorem loadBitmap_replaces_vector h st hash_hex part_idx content st' :
  disk st !! bitmap_path (cache_root_ st) hash_hex part_idx = Some content →
  loadBitmap bitmap_path h st hash_hex part_idx = (true, st') →
  let buffer :=
    (Host.pread h (bitmap_path (cache_root_ st) hash_hex part_idx)
       ((length content + 7) / 8) (disk st)).2 in
  length buffer = (length content + 7) / 8
  ∧ bitmap_at (bitmap_ st') hash_hex part_idx = Pack.decode buffer
  ∧ length (bitmap_at (bitmap_ st') hash_hex part_idx) = length buffer * 8
  ∧ (∀ j, j < length buffer * 8 →
       bitmap_at (bitmap_ st') hash_hex part_idx !! j
       = Some (bool_decide
                 (Z.land (buffer !!! (j / 8)) (Z.shiftl 1 (Z.of_nat (j mod 8)))
                  ≠ 0%Z)))
  ∧ (∀ i, length buffer * 8 ≤ i →
       is_dirty_block st' hash_hex part_idx i = false)
  ∧ (∀ h' p', (h', p') ≠ (hash_hex, part_idx) →
       bitmap_ st' !! h' ≫= (.!! p') = bitmap_ st !! h' ≫= (.!! p')).
Proof.
  intros Hfile Hload buffer.
  rewrite (loadBitmap_present h st hash_hex part_idx content Hfile) in Hload.
  cbn zeta in Hload. fold buffer in Hload.
  destruct (Host.open_read_fails h _); [done|].
  destruct (Host.moved _ _); [|done].
  injection Hload as <-. cbn [bitmap_ with_bitmap].
  rewrite bitmap_at_set.
  split; [apply length_pread_buffer|].
  split; [done|]. split; [apply length_decode|]. split; [|split].
  - intros j Hj. rewrite lookup_decode by done.
    change (Z.shiftl 1 (Z.of_nat (j mod 8))) with (bit_mask (j mod 8)).
    by rewrite bool_decide_land_mask.
  - intros i Hi. unfold is_dirty_block, bit_of. cbn [bitmap_ with_bitmap].
    rewrite bitmap_at_set.
    by rewrite lookup_ge_None_2 by (rewrite length_decode; lia).
  - intros h' p' Hne. by apply lookup_bitmap_set_ne.
Qed.

(** Loading a file that holds the packed form of a vector of n blocks, on
    a host where the file is read in full: the vector in memory becomes the
    first ((n + 7) / 8 + 7) / 8 * 8 bits of the packed one. *)
Lemma loadBitmap_packed h st hash_hex part_idx bits :
  bits ≠ [] →
  disk st !! bitmap_path (cache_root_ st) hash_hex part_idx
  = Some (Pack.pack bits) →
  Host.open_read_fails h (bitmap_path (cache_root_ st) hash_hex part_idx)
  = false →
  Host.pread_ends h (bitmap_path (cache_root_ st) hash_hex part_idx)
  = Host.Complete →
  ∃ st2,
    loadBitmap bitmap_path h st hash_hex part_idx = (true, st2)
    ∧ bitmap_at (bitmap_ st2) hash_hex part_idx
      = resize (((length bits + 7) / 8 + 7) / 8 * 8) false bits.
Proof.
  intros Hne Hdisk Hopen Hread.
  rewrite (loadBitmap_present h st hash_hex part_idx _ Hdisk).
  cbn zeta. rewrite Hopen. unfold Host.pread. rewrite Hread. cbn [Host.moved].
  pose proof (Nat.div_mod_eq (length bits + 7) 8).
  pose proof (Nat.mod_upper_bound (length bits + 7) 8 ltac:(done)).
  pose proof (Nat.div_mod_eq ((length bits + 7) / 8 + 7) 8).
  pose proof (Nat.mod_upper_bound ((length bits + 7) / 8 + 7) 8 ltac:(done)).
  assert (0 < length bits) by (destruct bits; [done|cbn; lia]).
  eexists. split; [done|]. cbn [bitmap_ with_bitmap snd].
  rewrite bitmap_at_set, Hdisk. cbn [default from_option id].
  rewrite length_pack, length_take, length_pack.
  replace (_ - _) with 0 by lia. cbn [replicate]. rewrite app_nil_r.
  apply decode_take_pack. lia.
Qed.

(** What the truncated vector keeps and what it drops. *)
Lemma resize_keeps_prefix (bits : BitVec) :
  let loaded := resize (((length bits + 7) / 8 + 7) / 8 * 8) false bits in
  (∀ i, i < length bits → i < length loaded → loaded !! i = bits !! i)
  ∧ (9 ≤ length bits → length loaded < length bits).
Proof.
  intros loaded. subst loaded.
  pose proof (Nat.div_mod_eq (length bits + 7) 8).
  pose proof (Nat.mod_upper_bound (length bits + 7) 8 ltac:(done)).
  pose proof (Nat.div_mod_eq ((length bits + 7) / 8 + 7) 8).
  pose proof (Nat.mod_upper_bound ((length bits + 7) / 8 + 7) 8 ltac:(done)).
  split.
  - intros i Hi Hl. rewrite length_resize in Hl.
    by rewrite lookup_resize by lia.
  - intros Hn. rewrite length_resize. lia.
Qed.

(** C1: after flush_bitmaps has persisted the non-empty vector of a part,
    load_bitmap of that part reconstructs a vector equal to it bit for bit
    on their common prefix, in the same process (whatever was loaded in
    between) or in a new one. This holds on a host where the part's file
    is read in full and under a layout that gives the part a file of its
    own. The vector of n blocks comes back as its first
    ((n + 7) / 8 + 7) / 8 * 8 bits: from nine blocks on the common prefix
    is shorter than the persisted vector. *)
Theorem load_after_flush h st hash_hex part_idx bits st1 st' :
  (∀ q, bitmap_path (cache_root_ st) hash_hex q
        = bitmap_path (cache_root_ st) hash_hex part_idx → q = part_idx) →
  parts_of st hash_hex !! part_idx = Some bits →
  bits ≠ [] →
  flushBitmaps bitmap_path h st hash_hex = (true, st1) →
  cache_root_ st' = cache_root_ st1 →
  disk st' = disk st1 →
  Host.open_read_fails h (bitmap_path (cache_root_ st) hash_hex part_idx)
  = false →
  Host.pread_ends h (bitmap_path (cache_root_ st) hash_hex part_idx)
  = Host.Complete →
  ∃ st2 loaded,
    loadBitmap bitmap_path h st' hash_hex part_idx = (true, st2)
    ∧ bitmap_at (bitmap_ st2) hash_hex part_idx = loaded
    ∧ (∀ i, i < length bits → i < length loaded →
         loaded !! i = bits !! i)
    ∧ loaded = resize (((length bits + 7) / 8 + 7) / 8 * 8) false bits
    ∧ 8 ≤ length loaded
    ∧ (9 ≤ length bits → length loaded < length bits).
Proof.
  intros Hinj Hin Hne Hf Hroot' Hdisk' Hopen Hread.
  pose proof (flushBitmaps_disk_written bitmap_path h st hash_hex part_idx
                bits st1 Hinj Hin Hne Hf) as Hdisk.
  pose proof (flushBitmaps_frame bitmap_path h st hash_hex) as Hfr.
  rewrite Hf in Hfr. cbn in Hfr. destruct Hfr as (Hroot & _ & _).
  rewrite <- Hroot, <- Hroot' in Hopen, Hread, Hdisk.
  rewrite <- Hdisk' in Hdisk.
  destruct (loadBitmap_packed h st' hash_hex part_idx bits Hne Hdisk Hopen
              Hread) as (st2 & Hload & Hvec).
  exists st2, (bitmap_at (bitmap_ st2) hash_hex part_idx).
  split; [done|]. split; [done|]. rewrite Hvec.
  pose proof (resize_keeps_prefix bits) as [Hpre Hshort].
  split; [exact Hpre|]. split; [done|]. split; [|exact Hshort].
  rewrite length_resize.
  pose proof (Nat.div_mod_eq (length bits + 7) 8).
  pose proof (Nat.mod_upper_bound (length bits + 7) 8 ltac:(done)).
  pose proof (Nat.div_mod_eq ((length bits + 7) / 8 + 7) 8).
  pose proof (Nat.mod_upper_bound ((length bits + 7) / 8 + 7) 8 ltac:(done)).
  assert (0 < length bits) by (destruct bits; [done|cbn; lia]).
  lia.
Qed.

(** The same for a single [persistBitmap]. *)
Lemma load_after_persist h st hash_hex part_idx bits st1 :
  bits ≠ [] →
  persistBitmap bitmap_path h st hash_hex part_idx bits = (true, st1) →
  Host.open_read_fails h (bitmap_path (cache_root_ st) hash_hex part_idx)
  = false →
  Host.pread_ends h (bitmap_path (cache_root_ st) hash_hex part_idx)
  = Host.Complete →
  ∃ st2,
    loadBitmap bitmap_path h st1 hash_hex part_idx = (true, st2)
    ∧ bitmap_at (bitmap_ st2) hash_hex part_idx
      = resize (((length bits + 7) / 8 + 7) / 8 * 8) false bits.
Proof.
  intros Hne Hp Hopen Hread.
  pose proof (persistBitmap_frame bitmap_path h st hash_hex part_idx bits)
    as Hfr.
  rewrite Hp in Hfr. cbn in Hfr. destruct Hfr as (Hroot & _ & _).
  pose proof (persisted_bitmap_content bitmap_path h st hash_hex part_idx
                bits st1 Hne Hp) as Hdisk.
  rewrite <- Hroot in Hopen, Hread, Hdisk.
  by apply loadBitmap_packed.
Qed.

End LoadFacts.

(** * The metadata table *)

Section TableFacts.

Import Sqlite.

Lemma c_str_idemp (s : string) : c_str (c_str s) = c_str s.
Proof.
  induction s as [|c s IH]; [done|]. cbn.
  destruct (Ascii.eqb c Ascii.zero) eqn:Hc; [done|].
  cbn. by rewrite Hc, IH.
Qed.

Lemma int64_small (z : Z) : (- 2 ^ 63 ≤ z < 2 ^ 63)%Z → int64 z = z.
Proof. intros Hz. unfold int64. rewrite Z.mod_small; lia. Qed.

Lemma int64_range (z : Z) : (- 2 ^ 63 ≤ int64 z < 2 ^ 63)%Z.
Proof.
  unfold int64.
  pose proof (Z.mod_pos_bound (z + 2 ^ 63) (2 ^ 64) ltac:(done)). lia.
Qed.

Lemma int64_idemp (z : Z) : int64 (int64 z) = int64 z.
Proof. apply int64_small, int64_range. Qed.

(** An unsigned 64-bit value survives the cast to [sqlite3_int64] and
    back. *)
Lemma size_t_int64 (z : Z) : (0 ≤ z < 2 ^ 64)%Z → size_t (int64 z) = z.
Proof.
  intros Hz. unfold size_t, int64.
  rewrite Zminus_mod_idemp_l.
  replace (z + 2 ^ 63 - 2 ^ 63)%Z with z by lia.
  by apply Z.mod_small.
Qed.

Lemma dirty_column (d : bool) :
  negb (int32 (if d then 1 else 0) =? 0)%Z = d.
Proof. by destruct d. Qed.

Lemma do_update_excluded (old r : row) : do_update old r = r.
Proof. by destruct r. Qed.

(** The table after a successful [put]. *)
Lemma put_table e st meta st' :
  put e st meta = (true, st') →
  st' = with_db st
          (<[c_str (path meta) :=
               Row (c_str (local_path meta)) (int64 (size meta))
                   (int64 (timestamp meta)) (int64 (last_accessed meta))
                   (if dirty meta then 1%Z else 0%Z)]> (db st)).
Proof.
  unfold put, sqlite3_prepare_v2, sqlite3_step.
  destruct (prepare_fault e); [done|]. cbn [is_ok negb].
  destruct (step_fault e); [done|].
  destruct (db st !! c_str (path meta)); cbn [is_done];
    intros [= <-]; by rewrite ?do_update_excluded.
Qed.

(** The row [get] builds from the columns of a table row. *)
Lemma get_spec e st p :
  get e st p
  = match prepare_fault e, step_fault e with
    | None, None =>
        (λ r, Meta p (c_str (col_local_path r))
                (size_t (int64 (col_size r)))
                (int64 (col_timestamp r)) (int64 (col_last_accessed r))
                (negb (int32 (col_dirty r) =? 0)%Z))
        <$> db st !! c_str p
    | _, _ => None
    end.
Proof.
  unfold get, sqlite3_prepare_v2, sqlite3_step.
  destruct (prepare_fault e); [done|]. cbn [is_ok negb].
  destruct (step_fault e); [done|].
  by destruct (db st !! c_str p).
Qed.

(** C7: put is an upsert keyed by path. After a successful put of a
    well-formed row, get of its path returns a row with the same
    local_path, size, timestamp, last_accessed and dirty, whether or not
    the path had a row before, and the rows of all other paths are as
    they were. *)
Theorem put_is_upsert e st meta st' :
  wf_meta meta →
  put e st meta = (true, st') →
  get healthy st' (path meta) = Some meta
  ∧ (∀ k, k ≠ path meta → db st' !! k = db st !! k)
  ∧ (∀ e' p, c_str p ≠ path meta → get e' st' p = get e' st p)
  ∧ bitmap_ st' = bitmap_ st ∧ disk st' = disk st.
Proof.
  intros [Hp Hl Hs Ht Ha] Hput. apply put_table in Hput. subst st'.
  unfold cstring in *. rewrite Hp, Hl.
  split; [|split; [|split]].
  - rewrite get_spec. cbn [db with_db prepare_fault step_fault healthy].
    rewrite Hp, lookup_insert_eq.
    cbn. rewrite Hl, !int64_idemp, size_t_int64, !int64_small, dirty_column
      by done.
    by destruct meta.
  - intros k Hk. cbn [db with_db]. by rewrite lookup_insert_ne.
  - intros e' p Hk. rewrite !get_spec. cbn [db with_db].
    by rewrite lookup_insert_ne.
  - done.
Qed.

(** An UPDATE whose WHERE clause matches no row. *)
Lemma alter_absent (f : row → row) (k : string) (t : table) :
  t !! k = None → alter f k t = t.
Proof.
  intros Hk. apply map_eq. intros j. rewrite lookup_alter.
  case_decide; subst; by rewrite ?Hk.
Qed.

Lemma with_db_same st : with_db st (db st) = st.
Proof. by destruct st. Qed.

(** C4: for a path with no row in the table, update_access_time and
    mark_dirty leave the store as it is, and they return success: true
    unless the engine itself reports an error. *)
Theorem update_absent_is_noop e st p t_access d :
  db st !! c_str p = None →
  (updateAccessTime e st p t_access).2 = st
  ∧ (markDirty e st p d).2 = st
  ∧ (updateAccessTime healthy st p t_access).1 = true
  ∧ (markDirty healthy st p d).1 = true
  ∧ ((updateAccessTime e st p t_access).1 = true ↔
     prepare_fault e = None ∧ step_fault e = None)
  ∧ ((markDirty e st p d).1 = true ↔
     prepare_fault e = None ∧ step_fault e = None).
Proof.
  intros Hk.
  unfold updateAccessTime, markDirty, sqlite3_prepare_v2, sqlite3_step.
  cbn [healthy prepare_fault step_fault is_ok negb].
  rewrite !alter_absent by done.
  destruct (prepare_fault e), (step_fault e);
    cbn [is_ok is_done negb fst snd]; rewrite ?with_db_same;
    repeat split; try done; by intros [? ?].
Qed.

End TableFacts.

(** * The model run on concrete stores *)

Example pack_nine_bits :
  Pack.pack [true; false; false; false; false; false; false; true; true]
  = [129%Z; 1%Z].
Proof. reflexivity. Qed.

Example unpack_replaces :
  Pack.unpack_into [5%Z] (replicate 10 true)
  = [true; false; true; false; false; false; false; false].
Proof. reflexivity. Qed.

Example bitmap_path_demo :
  Layout.bitmap_path Demo.root "abcdef" 3
  = "/cache/bitmap/ab/cd/abcdef/part_00000003.bmp"%string.
Proof. reflexivity. Qed.

Example emptied_parts : parts_of Demo.emptied Demo.hh = {[0 := []]}.
Proof. by vm_compute. Qed.

(** Block 8 of part 0 is marked dirty, flush_bitmaps succeeds and writes
    the two bytes 0x00 0x01, and load_bitmap succeeds but reads one byte of
    the two: the vector it leaves has eight clear bits, in the same process
    and in a new one, and the dirty bit of block 8 is not reconstructed. *)
Theorem roundtrip_loses_block_8 :
  is_dirty_block Demo.marked Demo.hh 0 8 = true
  ∧ flushBitmaps Layout.bitmap_path Host.reliable Demo.marked Demo.hh
    = (true, Demo.flushed)
  ∧ disk Demo.flushed !! Layout.bitmap_path Demo.root Demo.hh 0
    = Some [0%Z; 1%Z]
  ∧ (loadBitmap Layout.bitmap_path Host.reliable Demo.flushed Demo.hh 0).1
    = true
  ∧ bitmap_at
      (bitmap_ (loadBitmap Layout.bitmap_path Host.reliable Demo.flushed
                  Demo.hh 0).2) Demo.hh 0
    = replicate 8 false
  ∧ (loadBitmap Layout.bitmap_path Host.reliable Demo.restarted Demo.hh 0).1
    = true
  ∧ bitmap_at
      (bitmap_ (loadBitmap Layout.bitmap_path Host.reliable Demo.restarted
                  Demo.hh 0).2) Demo.hh 0
    = replicate 8 false
  ∧ is_dirty_block
      (loadBitmap Layout.bitmap_path Host.reliable Demo.restarted
         Demo.hh 0).2 Demo.hh 0 8
    = false.
Proof. repeat split; reflexivity. Qed.

(** The layout of the file written for the nine-bit vector of [Demo.marked]. *)
Lemma persisted_bitmap_layout_witness :
  ∃ bytes : list Z,
    disk Demo.flushed !! Layout.bitmap_path (cache_root_ Demo.marked) Demo.hh 0
    = Some bytes
    ∧ length bytes = (length (replicate 8 false ++ [true]) + 7) / 8
    ∧ length (replicate 8 false ++ [true]) ≤ 8 * length bytes
      < length (replicate 8 false ++ [true]) + 8
    ∧ ∀ i, i < length (replicate 8 false ++ [true]) →
        Z.land (bytes !!! (i / 8)) (Z.shiftl 1 (Z.of_nat (i mod 8))) ≠ 0%Z
        ↔ (replicate 8 false ++ [true]) !! i = Some true.
Proof.
  apply (persisted_bitmap_layout Layout.bitmap_path Host.reliable Demo.marked
           Demo.hh 0 (replicate 8 false ++ [true]) Demo.flushed).
  - discriminate.
  - reflexivity.
Defined.

(** A flush cut short by the host: it reports failure and the bitmaps in
    memory stay. *)
Lemma flushBitmaps_failure_keeps_bitmaps_witness :
  bitmap_ (flushBitmaps Layout.bitmap_path Demo.short_write Demo.marked
             Demo.hh).2
  = bitmap_ Demo.marked.
Proof.
  apply (flushBitmaps_failure_keeps_bitmaps Layout.bitmap_path
           Demo.short_write Demo.marked Demo.hh).
  reflexivity.
Defined.

(** Flushing an object whose only vector is empty. *)
Lemma flushBitmaps_nothing_to_write_witness :
  flushBitmaps Layout.bitmap_path Host.reliable Demo.emptied Demo.hh
  = (true, Demo.emptied).
Proof.
  apply (flushBitmaps_nothing_to_write Layout.bitmap_path Host.reliable
           Demo.emptied Demo.hh).
  apply map_Forall_to_list. vm_compute. repeat constructor.
Defined.

(** Loading part 1, which has no bitmap file. *)
Lemma loadBitmap_missing_file_witness :
  loadBitmap Layout.bitmap_path Host.reliable Demo.marked Demo.hh 1
  = (true, Demo.marked)
  ∧ (bitmap_ Demo.marked !! Demo.hh ≫= (.!! 1) = None →
     ∀ i, is_dirty_block
            (loadBitmap Layout.bitmap_path Host.reliable Demo.marked
               Demo.hh 1).2 Demo.hh 1 i
          = false).
Proof.
  apply (loadBitmap_missing_file Layout.bitmap_path Host.reliable Demo.marked
           Demo.hh 1).
  vm_compute. reflexivity.
Defined.

(** Twenty blocks in memory replaced by the eight bits of the one byte
    read; block 19 is no longer dirty. *)
Lemma loadBitmap_replaces_vector_witness :
  is_dirty_block Demo.stale Demo.hh 0 19 = true
  ∧ bitmap_at
      (bitmap_ (loadBitmap Layout.bitmap_path Host.reliable Demo.stale
                  Demo.hh 0).2) Demo.hh 0
    = Pack.decode [5%Z]
  ∧ is_dirty_block
      (loadBitmap Layout.bitmap_path Host.reliable Demo.stale Demo.hh 0).2
      Demo.hh 0 19
    = false.
Proof.
  split; [by vm_compute|].
  destruct (loadBitmap_replaces_vector Layout.bitmap_path Host.reliable
              Demo.stale Demo.hh 0 [5%Z; 0%Z]
              (loadBitmap Layout.bitmap_path Host.reliable Demo.stale
                 Demo.hh 0).2)
    as (Hlen & Hvec & _ & _ & Hgone & _).
  - reflexivity.
  - reflexivity.
  - split; [exact Hvec|]. apply Hgone. rewrite Hlen. vm_compute. lia.
Defined.

(** A row put into the empty table and read back. *)
Lemma put_is_upsert_witness :
  get Sqlite.healthy (put Sqlite.healthy Demo.fresh Demo.row).2 "/b.txt"
  = Some Demo.row.
Proof.
  apply (put_is_upsert Sqlite.healthy Demo.fresh Demo.row
           (put Sqlite.healthy Demo.fresh Demo.row).2).
  - split; [reflexivity|reflexivity|cbn; lia|cbn; lia|cbn; lia].
  - vm_compute. reflexivity.
Defined.

(** Updates of a path the table does not hold. *)
Lemma update_absent_is_noop_witness :
  (updateAccessTime Sqlite.healthy Demo.fresh "/none" 1700000000).2
  = Demo.fresh
  ∧ (markDirty Sqlite.healthy Demo.fresh "/none" true).2 = Demo.fresh
  ∧ (updateAccessTime Sqlite.healthy Demo.fresh "/none" 1700000000).1 = true
  ∧ (markDirty Sqlite.healthy Demo.fresh "/none" true).1 = true.
Proof.
  destruct (update_absent_is_noop Sqlite.healthy Demo.fresh "/none"
              1700000000 true) as (H1 & H2 & H3 & H4 & _).
  - reflexivity.
  - exact (conj H1 (conj H2 (conj H3 H4))).
Defined.

(** The nine-bit vector of [Demo.marked] flushed, and loaded back by a new
    process. *)
Lemma load_after_flush_witness :
  ∃ st2 loaded,
    loadBitmap Layout.bitmap_path Host.reliable Demo.restarted Demo.hh 0
    = (true, st2)
    ∧ bitmap_at (bitmap_ st2) Demo.hh 0 = loaded
    ∧ (∀ i, i < length (replicate 8 false ++ [true]) → i < length loaded →
         loaded !! i = (replicate 8 false ++ [true]) !! i)
    ∧ loaded
      = resize (((length (replicate 8 false ++ [true]) + 7) / 8 + 7) / 8 * 8)
          false (replicate 8 false ++ [true])
    ∧ 8 ≤ length loaded
    ∧ (9 ≤ length (replicate 8 false ++ [true]) →
       length loaded < length (replicate 8 false ++ [true])).
Proof.
  apply (load_after_flush Layout.bitmap_path Host.reliable Demo.marked
           Demo.hh 0 (replicate 8 false ++ [true]) Demo.flushed
           Demo.restarted).
  - intros q. apply bitmap_path_inj.
  - reflexivity.
  - discriminate.
  - reflexivity.
  - reflexivity.
  - reflexivity.
  - reflexivity.
  - reflexivity.
Defined.

(** * The two loops against each other *)

Section LoopsRoundTrip.

Import Pack.

Lemma resize_pad (bits : BitVec) (n : nat) :
  length bits ≤ n →
  resize n false bits = bits ++ replicate (n - length bits) false.
Proof. intros Hn. by rewrite resize_ge. Qed.

(** The loop of [loadBitmap] run over the whole buffer that the loop of
    [persistBitmap] builds gives the vector back, followed by the clear
    padding bits of the last byte, whatever the target vector held; and two
    vectors of one length with the same packed bytes are equal. *)
Theorem unpack_pack_roundtrip (bits vec : BitVec) :
  unpack_into (pack bits) vec
  = bits ++ replicate ((length bits + 7) / 8 * 8 - length bits) false
  ∧ take (length bits) (unpack_into (pack bits) vec) = bits
  ∧ (∀ bits' : BitVec,
       length bits' = length bits → pack bits' = pack bits → bits' = bits).
Proof.
  pose proof (Nat.div_mod_eq (length bits + 7) 8).
  pose proof (Nat.mod_upper_bound (length bits + 7) 8 ltac:(done)).
  assert (∀ (b v : BitVec),
            unpack_into (pack b) v
            = b ++ replicate ((length b + 7) / 8 * 8 - length b) false)
    as Hup.
  { intros b v.
    pose proof (Nat.div_mod_eq (length b + 7) 8).
    pose proof (Nat.mod_upper_bound (length b + 7) 8 ltac:(done)).
    rewrite unpack_into_decode, decode_pack. apply resize_pad. lia. }
  split; [apply Hup|]. split.
  - rewrite Hup. by rewrite take_app_length.
  - intros bits' Hlen Hpack.
    pose proof (Hup bits' []) as H1. pose proof (Hup bits []) as H2.
    rewrite Hpack, H2, Hlen in H1.
    by apply app_inv_tail in H1.
Qed.

End LoopsRoundTrip.

(** * Flushing, failing and loading back *)

Section FlushThenLoad.

Variable bitmap_path : string → string → nat → string.

(** The content [persistBitmap] leaves in the part's file depends on the
    content before (kept when the open fails), not on the other files. *)
Lemma persistBitmap_file_indep h st1 st2 hash_hex part_idx bits :
  cache_root_ st1 = cache_root_ st2 →
  disk st1 !! bitmap_path (cache_root_ st1) hash_hex part_idx
  = disk st2 !! bitmap_path (cache_root_ st1) hash_hex part_idx →
  disk (persistBitmap bitmap_path h st1 hash_hex part_idx bits).2
    !! bitmap_path (cache_root_ st1) hash_hex part_idx
  = disk (persistBitmap bitmap_path h st2 hash_hex part_idx bits).2
      !! bitmap_path (cache_root_ st1) hash_hex part_idx.
Proof.
  intros Hroot Hfile. destruct (decide (bits = [])) as [->|Hne]; [done|].
  rewrite !persistBitmap_nonempty by done. cbn zeta. rewrite <- Hroot.
  destruct (Host.open_write_fails h _); [done|].
  destruct (Host.moved _ _); unfold with_disk; cbn [snd disk];
    by rewrite !lookup_insert_eq.
Qed.

(** After the loop, the file of a part with a non-empty vector is what
    [persistBitmap] of that part alone leaves, when no other part of the
    loop shares the file. *)
Lemma flush_loop_disk_part h hash_hex l ok st p bits :
  NoDup l.*1 →
  (∀ q, q ∈ l.*1 →
     bitmap_path (cache_root_ st) hash_hex q
     = bitmap_path (cache_root_ st) hash_hex p → q = p) →
  (p, bits) ∈ l → bits ≠ [] →
  disk (foldl (flush_step bitmap_path h hash_hex) (ok, st) l).2
    !! bitmap_path (cache_root_ st) hash_hex p
  = disk (persistBitmap bitmap_path h st hash_hex p bits).2
      !! bitmap_path (cache_root_ st) hash_hex p.
Proof.
  revert ok st. induction l as [|[p0 b0] l IH]; intros ok st Hnd Hinj Hin Hb.
  { by apply elem_of_nil in Hin. }
  cbn [fmap list_fmap fst] in Hnd. apply NoDup_cons in Hnd as [Hp0 Hnd].
  cbn [foldl]. unfold flush_step at 2. cbn [fst snd].
  pose proof (persistBitmap_frame bitmap_path h st hash_hex p0 b0)
    as (Hroot & _ & _).
  pose proof (persistBitmap_disk_other bitmap_path h st hash_hex p0 b0
                (bitmap_path (cache_root_ st) hash_hex p)) as Hother.
  destruct (persistBitmap bitmap_path h st hash_hex p0 b0) as [r st1] eqn:Hp.
  cbn [snd] in Hroot, Hother.
  apply elem_of_cons in Hin as [[= -> ->]|Hin].
  - rewrite Hp. cbn [snd]. rewrite <- Hroot.
    apply flush_loop_disk_other.
    intros q qb Hq _ Heq. rewrite Hroot in Heq.
    apply Hinj in Heq; [|right; apply list_elem_of_fmap; by exists (q, qb)].
    subst q. apply Hp0, list_elem_of_fmap. by exists (p0, qb).
  - assert (p0 ≠ p) as Hne.
    { intros ->. apply Hp0, list_elem_of_fmap. by exists (p, bits). }
    rewrite <- Hroot. rewrite IH; try done.
    + apply persistBitmap_file_indep; [done|]. rewrite Hroot.
      apply Hother. intros Heq. apply Hne, Hinj; [left|done].
    + intros q Hq. rewrite Hroot. intros Heq. apply Hinj; [by right|done].
Qed.

Lemma flushBitmaps_disk_part h st hash_hex part_idx bits :
  (∀ q, bitmap_path (cache_root_ st) hash_hex q
        = bitmap_path (cache_root_ st) hash_hex part_idx → q = part_idx) →
  parts_of st hash_hex !! part_idx = Some bits → bits ≠ [] →
  disk (flushBitmaps bitmap_path h st hash_hex).2
    !! bitmap_path (cache_root_ st) hash_hex part_idx
  = disk (persistBitmap bitmap_path h st hash_hex part_idx bits).2
      !! bitmap_path (cache_root_ st) hash_hex part_idx.
Proof.
  intros Hinj Hin Hb. unfold flushBitmaps, parts_of in *.
  destruct (bitmap_ st !! hash_hex) as [parts|]; cbn [default] in Hin;
    [|by rewrite lookup_empty in Hin].
  apply flush_loop_disk_part; try done.
  - apply NoDup_fst_map_to_list.
  - intros q _. apply Hinj.
  - by apply elem_of_map_to_list.
Qed.

(** The block count that survives a flush and a load: the file of
    (n + 7) / 8 bytes is read into (that + 7) / 8 bytes. *)
Lemma kept_bounds (n : nat) :
  0 < n →
  8 ≤ ((n + 7) / 8 + 7) / 8 * 8
  ∧ (n ≤ 8 → ((n + 7) / 8 + 7) / 8 * 8 = 8)
  ∧ (9 ≤ n → ((n + 7) / 8 + 7) / 8 * 8 < n).
Proof.
  intros Hn.
  pose proof (Nat.div_mod_eq (n + 7) 8).
  pose proof (Nat.mod_upper_bound (n + 7) 8 ltac:(done)).
  pose proof (Nat.div_mod_eq ((n + 7) / 8 + 7) 8).
  pose proof (Nat.mod_upper_bound ((n + 7) / 8 + 7) 8 ltac:(done)).
  lia.
Qed.

(** Which dirty blocks survive a flush followed by a load (same process or
    a new one), on a host that reads the file in full: block i is dirty
    afterwards exactly when it was dirty and i is below
    ((n + 7) / 8 + 7) / 8 * 8. Up to eight blocks nothing is lost; beyond,
    every dirty block from that index on comes back clean. *)
Theorem dirty_blocks_after_flush_and_load h st hash_hex part_idx bits st1 st' :
  (∀ q, bitmap_path (cache_root_ st) hash_hex q
        = bitmap_path (cache_root_ st) hash_hex part_idx → q = part_idx) →
  parts_of st hash_hex !! part_idx = Some bits →
  bits ≠ [] →
  flushBitmaps bitmap_path h st hash_hex = (true, st1) →
  cache_root_ st' = cache_root_ st1 →
  disk st' = disk st1 →
  Host.open_read_fails h (bitmap_path (cache_root_ st) hash_hex part_idx)
  = false →
  Host.pread_ends h (bitmap_path (cache_root_ st) hash_hex part_idx)
  = Host.Complete →
  ∃ st2,
    loadBitmap bitmap_path h st' hash_hex part_idx = (true, st2)
    ∧ (∀ i, is_dirty_block st2 hash_hex part_idx i
            = bool_decide (i < ((length bits + 7) / 8 + 7) / 8 * 8)
              && bit_of bits i)
    ∧ (length bits ≤ 8 →
       ∀ i, is_dirty_block st2 hash_hex part_idx i = bit_of bits i)
    ∧ (∀ i, ((length bits + 7) / 8 + 7) / 8 * 8 ≤ i → bit_of bits i = true →
         is_dirty_block st2 hash_hex part_idx i = false).
Proof.
  intros Hinj Hin Hne Hf Hroot' Hdisk' Hopen Hread.
  pose proof (flushBitmaps_disk_written bitmap_path h st hash_hex part_idx
                bits st1 Hinj Hin Hne Hf) as Hdisk.
  pose proof (flushBitmaps_frame bitmap_path h st hash_hex) as Hfr.
  rewrite Hf in Hfr. cbn in Hfr. destruct Hfr as (Hroot & _ & _).
  rewrite <- Hroot, <- Hroot' in Hopen, Hread, Hdisk.
  rewrite <- Hdisk' in Hdisk.
  destruct (loadBitmap_packed bitmap_path h st' hash_hex part_idx bits Hne
              Hdisk Hopen Hread) as (st2 & Hload & Hvec).
  exists st2. split; [done|].
  assert (0 < length bits) as Hpos by (destruct bits; [done|cbn; lia]).
  destruct (kept_bounds (length bits) Hpos) as (_ & Hsmall & _).
  assert (∀ i, is_dirty_block st2 hash_hex part_idx i
               = bool_decide (i < ((length bits + 7) / 8 + 7) / 8 * 8)
                 && bit_of bits i) as Hchar.
  { intros i. unfold is_dirty_block. rewrite Hvec.
    case_bool_decide as Hi; cbn [andb].
    - unfold bit_of at 1. by rewrite lookup_resize_bit.
    - unfold bit_of at 1.
      by rewrite lookup_ge_None_2 by (rewrite length_resize; lia). }
  split; [exact Hchar|]. split.
  - intros Hle i. rewrite Hchar, Hsmall by done.
    case_bool_decide as Hi; [done|]. cbn [andb].
    by rewrite bit_of_ge by lia.
  - intros i Hi _. rewrite Hchar. by rewrite bool_decide_false by lia.
Qed.

(** What a [persistBitmap] that returns false leaves: everything as it was
    when the file could not be opened, and otherwise the part's file cut
    down to a strict prefix of the packed vector (empty when [write]
    failed outright), whatever bitmap it held. *)
Theorem persistBitmap_failure_truncates h st hash_hex part_idx bits st' :
  persistBitmap bitmap_path h st hash_hex part_idx bits = (false, st') →
  bits ≠ []
  ∧ bitmap_ st' = bitmap_ st
  ∧ (Host.open_write_fails h (bitmap_path (cache_root_ st) hash_hex part_idx)
     = true ∧ st' = st
     ∨ Host.open_write_fails h
         (bitmap_path (cache_root_ st) hash_hex part_idx) = false
       ∧ ∃ n, n < length (Pack.pack bits)
              ∧ disk st' !! bitmap_path (cache_root_ st) hash_hex part_idx
                = Some (take n (Pack.pack bits))
              ∧ (Host.write_ends h
                   (bitmap_path (cache_root_ st) hash_hex part_idx)
                 = Host.Fails → n = 0)).
Proof.
  intros Hp. destruct (decide (bits = [])) as [->|Hne]; [done|].
  split; [done|].
  rewrite persistBitmap_nonempty in Hp by done. cbn zeta in Hp.
  destruct (Host.open_write_fails h _) eqn:Hopen.
  { injection Hp as <-. split; [done|]. by left. }
  destruct (Host.moved _ _) as [n|] eqn:Hm.
  - injection Hp as Hn <-. split; [done|]. right. split; [done|].
    apply Z.eqb_neq in Hn. pose proof (moved_le _ _ _ Hm).
    exists n. split; [lia|]. split.
    + unfold with_disk. cbn [disk]. by rewrite lookup_insert_eq.
    + intros Hw. by rewrite Hw in Hm.
  - injection Hp as <-. split; [done|]. right. split; [done|].
    exists 0. split.
    + rewrite length_pack.
      pose proof (Nat.div_mod_eq (length bits + 7) 8).
      pose proof (Nat.mod_upper_bound (length bits + 7) 8 ltac:(done)).
      assert (0 < length bits) by (destruct bits; [done|cbn; lia]). lia.
    + split; [|done]. unfold with_disk. cbn [disk].
      by rewrite lookup_insert_eq.
Qed.

(** [flushBitmaps] returns the conjunction of the parts' results. *)
Lemma flushBitmaps_result h st hash_hex :
  (flushBitmaps bitmap_path h st hash_hex).1 = true ↔
  ∀ part_idx bits,
    parts_of st hash_hex !! part_idx = Some bits →
    (persistBitmap bitmap_path h st hash_hex part_idx bits).1 = true.
Proof.
  unfold flushBitmaps, parts_of.
  destruct (bitmap_ st !! hash_hex) as [parts|]; cbn [default fst].
  - destruct (flush_loop_spec bitmap_path h hash_hex (map_to_list parts)
                true st) as (_ & _ & _ & ->).
    rewrite Forall_forall. split.
    + intros [_ Hall] p bits Hin.
      apply (Hall (p, bits)), elem_of_map_to_list, Hin.
    + intros Hall. split; [done|]. intros [p bits] Hin.
      apply Hall, elem_of_map_to_list, Hin.
  - split; [|done]. intros _ p bits. by rewrite lookup_empty.
Qed.

Lemma bitmap_at_parts_of st hash_hex part_idx bits :
  parts_of st hash_hex !! part_idx = Some bits →
  bitmap_at (bitmap_ st) hash_hex part_idx = bits.
Proof.
  unfold parts_of, bitmap_at. intros Hin.
  destruct (bitmap_ st !! hash_hex) as [parts|]; cbn in *.
  - by rewrite Hin.
  - by rewrite lookup_empty in Hin.
Qed.

(** A flush in which the write of a part fails outright reports failure
    and keeps the part's bits in memory, but leaves the part's file empty;
    a load of the part then succeeds and empties the vector, so every
    dirty bit of the part is gone. *)
Theorem write_failure_then_load_clears h h2 st hash_hex part_idx bits ok st1 :
  (∀ q, bitmap_path (cache_root_ st) hash_hex q
        = bitmap_path (cache_root_ st) hash_hex part_idx → q = part_idx) →
  parts_of st hash_hex !! part_idx = Some bits →
  bits ≠ [] →
  Host.open_write_fails h (bitmap_path (cache_root_ st) hash_hex part_idx)
  = false →
  Host.write_ends h (bitmap_path (cache_root_ st) hash_hex part_idx)
  = Host.Fails →
  flushBitmaps bitmap_path h st hash_hex = (ok, st1) →
  Host.open_read_fails h2 (bitmap_path (cache_root_ st) hash_hex part_idx)
  = false →
  Host.pread_ends h2 (bitmap_path (cache_root_ st) hash_hex part_idx)
  ≠ Host.Fails →
  ok = false
  ∧ bitmap_at (bitmap_ st1) hash_hex part_idx = bits
  ∧ disk st1 !! bitmap_path (cache_root_ st) hash_hex part_idx = Some []
  ∧ ∃ st2,
      loadBitmap bitmap_path h2 st1 hash_hex part_idx = (true, st2)
      ∧ bitmap_at (bitmap_ st2) hash_hex part_idx = []
      ∧ ∀ i, is_dirty_block st2 hash_hex part_idx i = false.
Proof.
  intros Hinj Hin Hne Hopen Hwrite Hf Hropen Hread.
  pose proof (flushBitmaps_frame bitmap_path h st hash_hex) as Hfr.
  pose proof (flushBitmaps_disk_part h st hash_hex part_idx bits Hinj Hin Hne)
    as Hdisk.
  pose proof (flushBitmaps_result h st hash_hex) as Hres.
  rewrite Hf in Hfr, Hdisk, Hres. cbn [fst snd] in Hfr, Hdisk, Hres.
  destruct Hfr as (Hroot & _ & Hbm).
  assert (disk st1 !! bitmap_path (cache_root_ st) hash_hex part_idx = Some [])
    as Hempty.
  { rewrite Hdisk, persistBitmap_nonempty by done. cbn zeta.
    rewrite Hopen, Hwrite. cbn [Host.moved snd]. unfold with_disk.
    cbn [disk]. by rewrite lookup_insert_eq. }
  split; [|split; [|split; [done|]]].
  - destruct ok; [|done]. exfalso.
    pose proof (proj1 Hres eq_refl part_idx bits Hin) as Hp.
    apply persistBitmap_true_iff in Hp as [?|[_ Hm]]; [done|].
    by rewrite Hwrite in Hm.
  - rewrite Hbm. by apply bitmap_at_parts_of.
  - rewrite <- Hroot in Hempty, Hropen, Hread.
    rewrite (loadBitmap_present bitmap_path h2 st1 hash_hex part_idx []
               Hempty).
    cbn zeta. rewrite Hropen.
    change ((length (@nil Z) + 7) / 8) with 0.
    assert ((Host.pread h2 (bitmap_path (cache_root_ st1) hash_hex part_idx)
               0 (disk st1)).2 = []) as ->.
    { apply nil_length_inv, length_pread_buffer. }
    assert (∃ n, Host.moved
                   (Host.pread_ends h2
                      (bitmap_path (cache_root_ st1) hash_hex part_idx)) 0
                 = Some n) as [n ->].
    { destruct (Host.pread_ends h2 _); [done|by eexists..]. }
    eexists. split; [done|]. cbn [bitmap_ with_bitmap].
    rewrite bitmap_at_set. split; [done|].
    intros i. unfold is_dirty_block. cbn [bitmap_ with_bitmap].
    by rewrite bitmap_at_set.
Qed.

End FlushThenLoad.

(** * Marking blocks: composition *)

Section MarkFacts.

Implicit Types m : gmap string (gmap nat BitVec).






Lemma bitmap_set_set m hash_hex part_idx v v' :
  bitmap_set (bitmap_set m hash_hex part_idx v) hash_hex part_idx v'
  = bitmap_set m hash_hex part_idx v'.
Proof.
  unfold bitmap_set. rewrite lookup_insert_eq. cbn [default from_option id].
  by rewrite !insert_insert_eq.
Qed.

Lemma bitmap_set_swap m h p v h' p' v' :
  (h, p) ≠ (h', p') →
  bitmap_set (bitmap_set m h p v) h' p' v'
  = bitmap_set (bitmap_set m h' p' v') h p v.
Proof.
  intros Hne. unfold bitmap_set. destruct (decide (h = h')) as [<-|Hh].
  - assert (p ≠ p') by congruence.
    rewrite !lookup_insert_eq. cbn [default from_option id].
    rewrite !insert_insert_eq. f_equal. by apply insert_insert_ne.
  - rewrite !lookup_insert_ne by done. by apply insert_insert_ne.
Qed.


End MarkFacts.

Section MarkThenFlush.

Variable bitmap_path : string → string → nat → string.


End MarkThenFlush.

(** * Loading: failure, repetition, order *)

Section LoadComposition.

Variable bitmap_path : string → string → nat → string.

(** What a load does is fixed by the host, the root and the files: it
    fails, or finds no file, or stores one vector. *)
Lemma loadBitmap_shape h st hash_hex part_idx :
  ∃ o : option (option BitVec),
    ∀ st2, cache_root_ st2 = cache_root_ st → disk st2 = disk st →
      loadBitmap bitmap_path h st2 hash_hex part_idx
      = match o with
        | None => (false, st2)
        | Some None => (true, st2)
        | Some (Some v) =>
            (true,
             with_bitmap st2 (bitmap_set (bitmap_ st2) hash_hex part_idx v))
        end.
Proof.
  destruct (disk st !! bitmap_path (cache_root_ st) hash_hex part_idx)
    as [content|] eqn:Hfile.
  - destruct (Host.open_read_fails h
                (bitmap_path (cache_root_ st) hash_hex part_idx)) eqn:Hopen.
    { exists None. intros st2 Hroot Hdisk.
      rewrite <- Hroot, <- Hdisk in Hfile. rewrite <- Hroot in Hopen.
      rewrite (loadBitmap_present bitmap_path h st2 _ _ _ Hfile). cbn zeta.
      by rewrite Hopen. }
    destruct (Host.moved
                (Host.pread_ends h
                   (bitmap_path (cache_root_ st) hash_hex part_idx))
                ((length content + 7) / 8)) as [n|] eqn:Hm.
    + exists (Some (Some (Pack.decode
                (Host.pread h (bitmap_path (cache_root_ st) hash_hex part_idx)
                   ((length content + 7) / 8) (disk st)).2))).
      intros st2 Hroot Hdisk.
      rewrite <- Hroot, <- Hdisk in Hfile. rewrite <- Hroot in Hopen, Hm.
      rewrite (loadBitmap_present bitmap_path h st2 _ _ _ Hfile). cbn zeta.
      by rewrite Hopen, Hm, Hroot, Hdisk.
    + exists None. intros st2 Hroot Hdisk.
      rewrite <- Hroot, <- Hdisk in Hfile. rewrite <- Hroot in Hopen, Hm.
      rewrite (loadBitmap_present bitmap_path h st2 _ _ _ Hfile). cbn zeta.
      by rewrite Hopen, Hm.
  - exists (Some None). intros st2 Hroot Hdisk.
    rewrite <- Hroot, <- Hdisk in Hfile.
    unfold loadBitmap. by rewrite Hfile.
Qed.

(** A load that returns false has changed nothing, in memory or elsewhere:
    no entry is created for the part. And no load, failed or not, changes
    the files, the table or the vector of another part. *)
Theorem loadBitmap_failure_changes_nothing h st hash_hex part_idx r st' :
  loadBitmap bitmap_path h st hash_hex part_idx = (r, st') →
  (r = false → st' = st)
  ∧ disk st' = disk st ∧ db st' = db st ∧ cache_root_ st' = cache_root_ st
  ∧ (∀ h' p', (h', p') ≠ (hash_hex, part_idx) →
       bitmap_ st' !! h' ≫= (.!! p') = bitmap_ st !! h' ≫= (.!! p')).
Proof.
  destruct (loadBitmap_shape h st hash_hex part_idx) as [o Ho].
  rewrite (Ho st) by done.
  destruct o as [[v|]|]; intros [= <- <-]; repeat split; try done.
  intros h' p' Hne. cbn [bitmap_ with_bitmap]. by apply lookup_bitmap_set_ne.
Qed.

(** Loading a part twice is loading it once, and loading two parts gives
    the same store in either order. *)
Theorem loadBitmap_idempotent_and_commutes h st hh p hh' p' :
  loadBitmap bitmap_path h (loadBitmap bitmap_path h st hh p).2 hh p
  = loadBitmap bitmap_path h st hh p
  ∧ (loadBitmap bitmap_path h (loadBitmap bitmap_path h st hh p).2 hh' p').2
    = (loadBitmap bitmap_path h (loadBitmap bitmap_path h st hh' p').2 hh p).2.
Proof.
  destruct (loadBitmap_shape h st hh p) as [o Ho].
  destruct (loadBitmap_shape h st hh' p') as [o' Ho'].
  split.
  - rewrite (Ho st) by done.
    destruct o as [[v|]|]; cbn [snd]; rewrite Ho by done; try done.
    cbn [bitmap_ with_bitmap]. unfold with_bitmap at 1.
    cbn [bitmap_ cache_root_ db disk]. by rewrite bitmap_set_set.
  - rewrite (Ho st), (Ho' st) by done.
    destruct o as [[v|]|], o' as [[v'|]|]; cbn [snd];
      rewrite ?Ho, ?Ho' by done; cbn [snd]; try done.
    unfold with_bitmap. cbn [bitmap_ cache_root_ db disk].
    destruct (decide ((hh, p) = (hh', p'))) as [[= <- <-]|Hne].
    + specialize (Ho st eq_refl eq_refl). specialize (Ho' st eq_refl eq_refl).
      rewrite Ho in Ho'. injection Ho' as Heq.
      rewrite !bitmap_set_set. by rewrite Heq.
    + by rewrite bitmap_set_swap.
Qed.

End LoadComposition.

(** * The table: removing, updating, composing *)

Section TableComposition.

Import Sqlite.

Lemma put_spec e st meta :
  put e st meta
  = match prepare_fault e, step_fault e with
    | None, None =>
        (true,
         with_db st
           (<[c_str (path meta) :=
                Row (c_str (local_path meta)) (int64 (size meta))
                    (int64 (timestamp meta)) (int64 (last_accessed meta))
                    (if dirty meta then 1%Z else 0%Z)]> (db st)))
    | _, _ => (false, st)
    end.
Proof.
  unfold put, sqlite3_prepare_v2, sqlite3_step.
  destruct (prepare_fault e); [done|]. cbn [is_ok negb].
  destruct (step_fault e); [by rewrite with_db_same|].
  destruct (db st !! c_str (path meta)); cbn [is_done];
    by rewrite ?do_update_excluded.
Qed.

Lemma remove_spec e st p :
  remove e st p
  = match prepare_fault e, step_fault e with
    | None, None => (true, with_db st (delete (c_str p) (db st)))
    | _, _ => (false, st)
    end.
Proof.
  unfold remove, sqlite3_prepare_v2, sqlite3_step.
  destruct (prepare_fault e); [done|]. cbn [is_ok negb].
  destruct (step_fault e); [by rewrite with_db_same|]. done.
Qed.

Lemma updateAccessTime_spec e st p t_access :
  updateAccessTime e st p t_access
  = match prepare_fault e, step_fault e with
    | None, None =>
        (true,
         with_db st
           (alter (set_last_accessed (int64 t_access)) (c_str p) (db st)))
    | _, _ => (false, st)
    end.
Proof.
  unfold updateAccessTime, sqlite3_prepare_v2, sqlite3_step.
  destruct (prepare_fault e); [done|]. cbn [is_ok negb].
  destruct (step_fault e); [by rewrite with_db_same|]. done.
Qed.

Lemma markDirty_spec e st p d :
  markDirty e st p d
  = match prepare_fault e, step_fault e with
    | None, None =>
        (true,
         with_db st
           (alter (set_dirty (if d then 1%Z else 0%Z)) (c_str p) (db st)))
    | _, _ => (false, st)
    end.
Proof.
  unfold markDirty, sqlite3_prepare_v2, sqlite3_step.
  destruct (prepare_fault e); [done|]. cbn [is_ok negb].
  destruct (step_fault e); [by rewrite with_db_same|]. done.
Qed.

(** After a successful remove the path has no row, whatever it had before,
    every other row is as it was, and removing a path that has no row is
    a successful no-op; bitmaps and files are not touched (the caller has
    to remove parts and bitmap files itself). *)
Theorem remove_deletes_row e st p st' :
  remove e st p = (true, st') →
  (∀ e', get e' st' p = None)
  ∧ (∀ e' q, c_str q ≠ c_str p → get e' st' q = get e' st q)
  ∧ (db st !! c_str p = None → st' = st)
  ∧ bitmap_ st' = bitmap_ st ∧ disk st' = disk st.
Proof.
  rewrite remove_spec.
  destruct (prepare_fault e); [done|]. destruct (step_fault e); [done|].
  intros [= <-]. split; [|split; [|split]].
  - intros e'. rewrite get_spec. cbn [db with_db].
    rewrite lookup_delete_eq. by destruct (prepare_fault e'), (step_fault e').
  - intros e' q Hq. rewrite !get_spec. cbn [db with_db].
    by rewrite lookup_delete_ne.
  - intros Habs. rewrite delete_id by done. apply with_db_same.
  - done.
Qed.

(** A put followed by a remove of the same path leaves the table without
    that row; when the path was new, the store is back where it started. *)
Theorem put_then_remove e1 e2 st meta st1 st2 :
  put e1 st meta = (true, st1) →
  remove e2 st1 (path meta) = (true, st2) →
  db st2 = delete (c_str (path meta)) (db st)
  ∧ (db st !! c_str (path meta) = None → st2 = st).
Proof.
  rewrite put_spec, remove_spec.
  destruct (prepare_fault e1); [done|]. destruct (step_fault e1); [done|].
  destruct (prepare_fault e2); [done|]. destruct (step_fault e2); [done|].
  intros [= <-] [= <-]. cbn [db with_db].
  rewrite delete_insert_eq. split; [done|].
  intros Habs. unfold with_db. cbn [cache_root_ db bitmap_ disk].
  rewrite delete_id by done. by destruct st.
Qed.

(** The later of two successful puts to one path decides the row: the
    store is the one the second put alone would give. *)
Theorem put_last_writer_wins e1 e2 st m1 m2 st1 st2 :
  c_str (path m1) = c_str (path m2) →
  put e1 st m1 = (true, st1) →
  put e2 st1 m2 = (true, st2) →
  put e2 st m2 = (true, st2).
Proof.
  intros Hkey. rewrite !put_spec.
  destruct (prepare_fault e1); [done|]. destruct (step_fault e1); [done|].
  destruct (prepare_fault e2); [done|]. destruct (step_fault e2); [done|].
  intros [= <-] [= <-]. unfold with_db. cbn [cache_root_ db bitmap_ disk].
  by rewrite Hkey, insert_insert_eq.
Qed.

(** On a path that has a row, a successful update_access_time changes
    last_accessed and nothing else of what get returns, and no other row. *)
Theorem updateAccessTime_sets_last_accessed e st p t_access m st' :
  get healthy st p = Some m →
  updateAccessTime e st p t_access = (true, st') →
  get healthy st' p
  = Some (Meta (path m) (local_path m) (size m) (timestamp m)
            (int64 t_access) (dirty m))
  ∧ (∀ e' q, c_str q ≠ c_str p → get e' st' q = get e' st q)
  ∧ bitmap_ st' = bitmap_ st ∧ disk st' = disk st.
Proof.
  rewrite updateAccessTime_spec, !get_spec.
  cbn [healthy prepare_fault step_fault].
  destruct (prepare_fault e); [done|]. destruct (step_fault e); [done|].
  intros Hget [= <-]. cbn [db with_db]. split; [|split; [|done]].
  - rewrite lookup_alter_eq.
    destruct (db st !! c_str p) as [r|]; [|done].
    cbn in *. injection Hget as <-. cbn. by rewrite int64_idemp.
  - intros e' q Hq. rewrite !get_spec. cbn [db with_db].
    by rewrite lookup_alter_ne.
Qed.

(** On a path that has a row, a successful mark_dirty changes the dirty
    flag and nothing else of what get returns, and no other row. The
    bitmaps in memory are not consulted or changed. *)
Theorem markDirty_sets_dirty e st p d m st' :
  get healthy st p = Some m →
  markDirty e st p d = (true, st') →
  get healthy st' p
  = Some (Meta (path m) (local_path m) (size m) (timestamp m)
            (last_accessed m) d)
  ∧ (∀ e' q, c_str q ≠ c_str p → get e' st' q = get e' st q)
  ∧ bitmap_ st' = bitmap_ st ∧ disk st' = disk st.
Proof.
  rewrite markDirty_spec, !get_spec.
  cbn [healthy prepare_fault step_fault].
  destruct (prepare_fault e); [done|]. destruct (step_fault e); [done|].
  intros Hget [= <-]. cbn [db with_db]. split; [|split; [|done]].
  - rewrite lookup_alter_eq.
    destruct (db st !! c_str p) as [r|]; [|done].
    cbn in *. injection Hget as <-. cbn. by rewrite dirty_column.
  - intros e' q Hq. rewrite !get_spec. cbn [db with_db].
    by rewrite lookup_alter_ne.
Qed.

Lemma alter_swap (f g : row → row) (k k' : string) (t : table) :
  (∀ r, f (g r) = g (f r)) →
  alter f k (alter g k' t) = alter g k' (alter f k t).
Proof.
  intros Hfg. apply map_eq. intros j. rewrite !lookup_alter.
  repeat case_decide; subst; rewrite ?lookup_alter_eq, ?lookup_alter_ne by done;
    try done.
  destruct (t !! j); cbn; by rewrite ?Hfg.
Qed.

(** update_access_time and mark_dirty, on the same path or on two paths,
    give the same results and the same store in either order, with or
    without engine errors. *)
Theorem updateAccessTime_markDirty_commute e1 e2 st p t_access q d :
  let a := updateAccessTime e1 st p t_access in
  let ab := markDirty e2 a.2 q d in
  let b := markDirty e2 st q d in
  let ba := updateAccessTime e1 b.2 p t_access in
  a.1 = ba.1 ∧ ab.1 = b.1 ∧ ab.2 = ba.2.
Proof.
  cbn zeta. rewrite !updateAccessTime_spec, !markDirty_spec.
  destruct (prepare_fault e1), (step_fault e1), (prepare_fault e2),
    (step_fault e2); cbn [fst snd]; try done.
  unfold with_db. cbn [cache_root_ db bitmap_ disk].
  repeat split. f_equal. by apply alter_swap.
Qed.

End TableComposition.

(** * Listing the table *)

Section ListingFacts.

Import Sqlite Scan.

Lemma collect_rows (l : list (string * row)) (last : rc * option (string * row)) :
  (last.1 ≠ SQLITE_ROW ∨ last.2 = None) →
  collect (((λ kr, (SQLITE_ROW, Some kr)) <$> l) ++ [last]) = entry_of <$> l.
Proof.
  intros Hlast. induction l as [|kr l IH]; cbn.
  - destruct last as [[] [?|]]; cbn in *; try done; by destruct Hlast.
  - by rewrite IH.
Qed.

(** The listing when the engine reports no error. *)
Lemma allEntries_healthy st :
  allEntries healthy None st = entry_of <$> map_to_list (db st).
Proof.
  unfold allEntries, steps. cbn. apply collect_rows. by left.
Qed.

(** The listing in general: the rows read before the first step that is
    not SQLITE_ROW. *)
Lemma allEntries_spec e cut st :
  allEntries e cut st
  = match prepare_fault e, step_fault e with
    | None, None =>
        match cut with
        | Some (k, _) => entry_of <$> take k (map_to_list (db st))
        | None => entry_of <$> map_to_list (db st)
        end
    | _, _ => []
    end.
Proof.
  unfold allEntries, steps, sqlite3_prepare_v2.
  destruct (prepare_fault e); [done|]. cbn [is_ok negb].
  destruct (step_fault e); [done|].
  destruct cut as [[k c]|]; [|apply collect_rows; by left].
  rewrite length_fmap.
  destruct (Nat.ltb_spec k (length (map_to_list (db st)))).
  - rewrite <- fmap_take. apply collect_rows. by left.
  - rewrite take_ge by lia. apply collect_rows. by left.
Qed.

(** all_entries never reports an error: when preparing or stepping fails
    it returns the entries read so far, a prefix of the full listing (empty
    when the failure comes first), and the caller cannot tell this from a
    smaller table. *)
Theorem allEntries_is_prefix_on_error e cut st :
  allEntries e cut st `prefix_of` allEntries healthy None st
  ∧ (prepare_fault e ≠ None ∨ step_fault e ≠ None → allEntries e cut st = [])
  ∧ (prepare_fault e = None → step_fault e = None →
     ∀ k c, cut = Some (k, c) →
       length (allEntries e cut st) = k `min` base.size (db st)).
Proof.
  rewrite allEntries_spec, allEntries_healthy.
  split; [|split].
  - destruct (prepare_fault e); [apply prefix_nil|].
    destruct (step_fault e); [apply prefix_nil|].
    destruct cut as [[k c]|]; [|done].
    rewrite fmap_take. apply prefix_take.
  - intros [H|H]; destruct (prepare_fault e), (step_fault e); done.
  - intros -> -> k c ->.
    by rewrite length_fmap, length_take, length_map_to_list.
Qed.

Lemma elem_of_full_listing (t : table) (m : CacheMetadata) :
  m ∈ entry_of <$> map_to_list t
  ↔ ∃ k r, t !! k = Some r ∧ m = entry_of (k, r).
Proof.
  rewrite list_elem_of_fmap. split.
  - intros ([k r] & -> & Hin). exists k, r. split; [|done].
    by apply elem_of_map_to_list.
  - intros (k & r & Hin & ->). exists (k, r). split; [done|].
    by apply elem_of_map_to_list.
Qed.

(** On a table whose keys hold no embedded terminator (as [put] stores
    them), all_entries and get agree: the listing has one entry per row,
    no path twice, and an entry is listed exactly when get of its path
    returns it. *)
Theorem allEntries_agrees_with_get st :
  table_ok (db st) →
  length (allEntries healthy None st) = base.size (db st)
  ∧ NoDup (path <$> allEntries healthy None st)
  ∧ ∀ m, m ∈ allEntries healthy None st
         ↔ cstring (path m) ∧ get healthy st (path m) = Some m.
Proof.
  intros Hok. rewrite allEntries_healthy.
  split; [by rewrite length_fmap, length_map_to_list|]. split.
  - rewrite <- list_fmap_compose.
    assert (path ∘ entry_of <$> map_to_list (db st)
            = (map_to_list (db st)).*1) as ->.
    { apply Forall_fmap_ext, Forall_forall. intros [k r] Hin.
      apply elem_of_map_to_list in Hin. cbn.
      by destruct (Hok k r Hin). }
    apply NoDup_fst_map_to_list.
  - intros m. rewrite elem_of_full_listing, get_spec.
    cbn [healthy prepare_fault step_fault]. split.
    + intros (k & r & Hin & ->). destruct (Hok k r Hin) as [Hk _ _ _ _ _].
      unfold cstring in *. cbn [path entry_of fst snd].
      rewrite c_str_idemp. split; [done|].
      rewrite Hk, Hin. unfold entry_of. cbn. by rewrite Hk.
    + intros [Hp Hget]. unfold cstring in Hp. rewrite Hp in Hget.
      destruct (db st !! path m) as [r|] eqn:Hin; [|done].
      exists (path m), r. split; [done|].
      cbn in Hget. injection Hget as <-. unfold entry_of. cbn. by rewrite Hp.
Qed.

Lemma table_ok_empty : table_ok ∅.
Proof. apply map_Forall_empty. Qed.

Lemma table_ok_put e st meta :
  table_ok (db st) → table_ok (db (put e st meta).2).
Proof.
  intros Hok. rewrite put_spec.
  destruct (prepare_fault e), (step_fault e); try done.
  cbn [snd db with_db]. apply map_Forall_insert_2; [|done].
  split; cbn; try apply c_str_idemp; try apply int64_range.
  destruct (dirty meta); auto.
Qed.

Lemma table_ok_updateAccessTime e st p t_access :
  table_ok (db st) → table_ok (db (updateAccessTime e st p t_access).2).
Proof.
  intros Hok. rewrite updateAccessTime_spec.
  destruct (prepare_fault e), (step_fault e); try done.
  cbn [snd db with_db]. intros k r. rewrite lookup_alter.
  case_decide; [subst|by apply Hok].
  destruct (db st !! c_str p) as [r0|] eqn:Hr0; [|done].
  intros [= <-]. destruct (Hok _ _ Hr0). split; cbn; try done.
  apply int64_range.
Qed.

Lemma table_ok_markDirty e st p d :
  table_ok (db st) → table_ok (db (markDirty e st p d).2).
Proof.
  intros Hok. rewrite markDirty_spec.
  destruct (prepare_fault e), (step_fault e); try done.
  cbn [snd db with_db]. intros k r. rewrite lookup_alter.
  case_decide; [subst|by apply Hok].
  destruct (db st !! c_str p) as [r0|] eqn:Hr0; [|done].
  intros [= <-]. destruct (Hok _ _ Hr0). split; cbn; try done.
  destruct d; auto.
Qed.

Lemma table_ok_remove e st p :
  table_ok (db st) → table_ok (db (remove e st p).2).
Proof.
  intros Hok. rewrite remove_spec.
  destruct (prepare_fault e), (step_fault e); try done.
  cbn [snd db with_db]. by apply map_Forall_delete.
Qed.

(** The invariant of the table: whatever is put, updated, marked or
    removed, with or without engine errors, every key and local_path in
    the table is free of embedded terminators, the integers fit 64 bits
    and the dirty column is 0 or 1; so every row that get returns from
    such a table is the stored one, field for field. *)
Theorem table_ok_is_kept e st :
  table_ok (db st) →
  (∀ meta, table_ok (db (put e st meta).2))
  ∧ (∀ p t_access, table_ok (db (updateAccessTime e st p t_access).2))
  ∧ (∀ p d, table_ok (db (markDirty e st p d).2))
  ∧ (∀ p, table_ok (db (remove e st p).2))
  ∧ (∀ p m, get healthy st p = Some m →
       ∃ r, db st !! c_str p = Some r
            ∧ local_path m = col_local_path r
            ∧ (size m = col_size r mod 2 ^ 64)%Z
            ∧ timestamp m = col_timestamp r
            ∧ last_accessed m = col_last_accessed r
            ∧ (dirty m = true ↔ col_dirty r = 1%Z)).
Proof.
  intros Hok. split; [|split; [|split; [|split]]].
  - intros meta. by apply table_ok_put.
  - intros p t. by apply table_ok_updateAccessTime.
  - intros p d. by apply table_ok_markDirty.
  - intros p. by apply table_ok_remove.
  - intros p m. rewrite get_spec. cbn [healthy prepare_fault step_fault].
    destruct (db st !! c_str p) as [r|] eqn:Hr; [|done].
    cbn. intros [= <-]. exists r. destruct (Hok _ _ Hr) as [_ Hl Hs Ht Ha Hd].
    cbn. rewrite Hl, !int64_small by done.
    repeat split; try done.
    + destruct Hd as [-> | ->]; done.
    + destruct Hd as [-> | ->]; done.
Qed.

(** How the listing grows and shrinks: a successful put adds one entry
    when the path had no row and none when it had one; a successful remove
    takes one away when the path had a row and none otherwise. *)
Theorem allEntries_count e st :
  (∀ meta st',
     put e st meta = (true, st') →
     length (allEntries healthy None st')
     = if db st !! c_str (path meta) is Some _
       then length (allEntries healthy None st)
       else S (length (allEntries healthy None st)))
  ∧ (∀ p st',
       remove e st p = (true, st') →
       length (allEntries healthy None st')
       = if db st !! c_str p is Some _
         then pred (length (allEntries healthy None st))
         else length (allEntries healthy None st)).
Proof.
  split.
  - intros meta st'. rewrite put_spec.
    destruct (prepare_fault e); [done|]. destruct (step_fault e); [done|].
    intros [= <-]. rewrite !allEntries_healthy, !length_fmap,
      !length_map_to_list. cbn [db with_db].
    rewrite map_size_insert. by destruct (db st !! c_str (path meta)).
  - intros p st'. rewrite remove_spec.
    destruct (prepare_fault e); [done|]. destruct (step_fault e); [done|].
    intros [= <-]. rewrite !allEntries_healthy, !length_fmap,
      !length_map_to_list. cbn [db with_db].
    rewrite map_size_delete. by destruct (db st !! c_str p).
Qed.

End ListingFacts.

(** * Opening, cleaning up, destroying *)

Section LifecycleFacts.

Import Sqlite Lifecycle.

(** The rows of the table outlive the object when it ends through its
    destructor: a new object on the same file finds them after init
    (CREATE TABLE IF NOT EXISTS keeps an existing table). They do not
    outlive cleanup, which drops the table: init afterwards finds an empty
    one. When the DROP fails, cleanup goes on regardless and the rows
    stay. *)
Theorem rows_survive_destructor_not_cleanup s t c :
  db_handle_ s = true →
  table_ s = Some t →
  init None None (construct (table_ (destroy s)))
  = (true, Store true (Some t) 0)
  ∧ init None None (cleanup None s)
    = (true, Store true (Some ∅) (S (closed s)))
  ∧ init None None (cleanup (Some c) s)
    = (true, Store true (Some t) (S (closed s))).
Proof.
  intros Hh Ht. unfold init, cleanup, destroy, construct.
  rewrite Hh. cbn. by rewrite Ht.
Qed.

(** The connection is closed once: after cleanup neither a second cleanup
    nor the destructor closes it again, and an object whose open failed
    never closes anything; an init that fails on CREATE TABLE has already
    stored the handle, which the destructor then closes. *)
Theorem connection_closed_once s x y f c :
  db_handle_ s = true →
  cleanup y (cleanup x s) = cleanup x s
  ∧ destroy (cleanup x s) = cleanup x s
  ∧ closed (cleanup x s) = S (closed s)
  ∧ closed (destroy s) = S (closed s)
  ∧ init (Some c) x (construct f) = (false, construct f)
  ∧ destroy (construct f) = construct f
  ∧ cleanup x (construct f) = construct f
  ∧ (init None (Some c) (construct f)).1 = false
  ∧ closed (destroy (init None (Some c) (construct f)).2) = 1.
Proof.
  intros Hh. unfold init, cleanup, destroy, construct. rewrite Hh. cbn.
  repeat split.
Qed.

End LifecycleFacts.

(** * The further properties on concrete stores *)

(** A pair is settled by its first component once the second is named by
    projection. *)
Lemma pair_from_fst {A B : Type} (p : A * B) (a : A) : p.1 = a → p = (a, p.2).
Proof. destruct p as [x y]. cbn. by intros ->. Qed.

(** Seventy-one blocks with blocks 3 and 70 dirty: after flush and load
    block 3 is still dirty and block 70 is not. *)
Lemma dirty_blocks_after_flush_and_load_witness :
  ∃ st2,
    loadBitmap Layout.bitmap_path Host.reliable
      (flushBitmaps Layout.bitmap_path Host.reliable Sample.three_marks
         Demo.hh).2 Demo.hh 0
    = (true, st2)
    ∧ is_dirty_block st2 Demo.hh 0 3 = true
    ∧ is_dirty_block st2 Demo.hh 0 70 = false.
Proof.
  destruct (dirty_blocks_after_flush_and_load Layout.bitmap_path Host.reliable
              Sample.three_marks Demo.hh 0
              (bitmap_at (bitmap_ Sample.three_marks) Demo.hh 0)
              (flushBitmaps Layout.bitmap_path Host.reliable
                 Sample.three_marks Demo.hh).2
              (flushBitmaps Layout.bitmap_path Host.reliable
                 Sample.three_marks Demo.hh).2)
    as (st2 & Hload & Hchar & _).
  - intros q. apply bitmap_path_inj.
  - reflexivity.
  - vm_compute. discriminate.
  - apply pair_from_fst. vm_compute. reflexivity.
  - reflexivity.
  - reflexivity.
  - reflexivity.
  - reflexivity.
  - exists st2. split; [exact Hload|]. rewrite !Hchar. split; reflexivity.
Defined.

(** A write cut after one byte: the two-byte bitmap is left as its first
    byte. *)
Lemma persistBitmap_failure_truncates_witness :
  ∃ n, n < length (Pack.pack (replicate 8 false ++ [true]))
       ∧ disk (persistBitmap Layout.bitmap_path Demo.short_write Demo.marked
                 Demo.hh 0 (replicate 8 false ++ [true])).2
           !! Layout.bitmap_path Demo.root Demo.hh 0
         = Some (take n (Pack.pack (replicate 8 false ++ [true]))).
Proof.
  destruct (persistBitmap_failure_truncates Layout.bitmap_path
              Demo.short_write Demo.marked Demo.hh 0
              (replicate 8 false ++ [true])
              (persistBitmap Layout.bitmap_path Demo.short_write Demo.marked
                 Demo.hh 0 (replicate 8 false ++ [true])).2)
    as (_ & _ & [[Hopen _]|[_ (n & Hn & Hfile & _)]]).
  - reflexivity.
  - discriminate Hopen.
  - exists n. split; [exact Hn|exact Hfile].
Defined.

(** The write of part 0 fails: flush reports it, and the load that follows
    leaves part 0 without a dirty block. *)
Lemma write_failure_then_load_clears_witness :
  (flushBitmaps Layout.bitmap_path Sample.write_error Demo.marked Demo.hh).1
  = false
  ∧ ∃ st2,
      loadBitmap Layout.bitmap_path Host.reliable
        (flushBitmaps Layout.bitmap_path Sample.write_error Demo.marked
           Demo.hh).2 Demo.hh 0
      = (true, st2)
      ∧ ∀ i, is_dirty_block st2 Demo.hh 0 i = false.
Proof.
  destruct (write_failure_then_load_clears Layout.bitmap_path
              Sample.write_error Host.reliable Demo.marked Demo.hh 0
              (replicate 8 false ++ [true])
              (flushBitmaps Layout.bitmap_path Sample.write_error Demo.marked
                 Demo.hh).1
              (flushBitmaps Layout.bitmap_path Sample.write_error Demo.marked
                 Demo.hh).2)
    as (Hok & _ & _ & st2 & Hload & _ & Hclear).
  - intros q. apply bitmap_path_inj.
  - reflexivity.
  - discriminate.
  - reflexivity.
  - reflexivity.
  - reflexivity.
  - reflexivity.
  - discriminate.
  - split; [exact Hok|]. exists st2. split; [exact Hload|exact Hclear].
Defined.


(** The bitmap file is there but cannot be opened: the twenty blocks in
    memory stay as they are. *)
Lemma loadBitmap_failure_changes_nothing_witness :
  (loadBitmap Layout.bitmap_path Sample.unreadable Demo.stale Demo.hh 0).2
  = Demo.stale.
Proof.
  destruct (loadBitmap_failure_changes_nothing Layout.bitmap_path
              Sample.unreadable Demo.stale Demo.hh 0 false
              (loadBitmap Layout.bitmap_path Sample.unreadable Demo.stale
                 Demo.hh 0).2) as (Hsame & _).
  - reflexivity.
  - by apply Hsame.
Defined.

(** One of two rows removed. *)
Lemma remove_deletes_row_witness :
  (∀ e', get e' (remove Sqlite.healthy Sample.two_rows "/b.txt").2 "/b.txt"
         = None)
  ∧ get Sqlite.healthy (remove Sqlite.healthy Sample.two_rows "/b.txt").2
      "/dir/c.txt"
    = Some Sample.row2.
Proof.
  destruct (remove_deletes_row Sqlite.healthy Sample.two_rows "/b.txt"
              (remove Sqlite.healthy Sample.two_rows "/b.txt").2)
    as (Hgone & Hother & _).
  - vm_compute. reflexivity.
  - split; [exact Hgone|]. rewrite Hother; [|vm_compute; discriminate].
    vm_compute. reflexivity.
Defined.

(** A new path put and removed again. *)
Lemma put_then_remove_witness :
  (remove Sqlite.healthy (put Sqlite.healthy Demo.fresh Demo.row).2
     "/b.txt").2
  = Demo.fresh.
Proof.
  apply (put_then_remove Sqlite.healthy Sqlite.healthy Demo.fresh Demo.row
           (put Sqlite.healthy Demo.fresh Demo.row).2).
  - vm_compute. reflexivity.
  - vm_compute. reflexivity.
  - reflexivity.
Defined.

(** Two puts to /b.txt: the second row stands. *)
Lemma put_last_writer_wins_witness :
  put Sqlite.healthy Demo.fresh
    (Meta "/b.txt" "" 9 1700000500 1700000600 false)
  = (true,
     (put Sqlite.healthy (put Sqlite.healthy Demo.fresh Demo.row).2
        (Meta "/b.txt" "" 9 1700000500 1700000600 false)).2).
Proof.
  apply (put_last_writer_wins Sqlite.healthy Sqlite.healthy Demo.fresh
           Demo.row (Meta "/b.txt" "" 9 1700000500 1700000600 false)
           (put Sqlite.healthy Demo.fresh Demo.row).2).
  - reflexivity.
  - vm_compute. reflexivity.
  - vm_compute. reflexivity.
Defined.

(** The access time of /b.txt moved on. *)
Lemma updateAccessTime_sets_last_accessed_witness :
  get Sqlite.healthy
    (updateAccessTime Sqlite.healthy Sample.two_rows "/b.txt" 1700000999).2
    "/b.txt"
  = Some (Meta (path Demo.row) (local_path Demo.row) (size Demo.row)
            (timestamp Demo.row) (int64 1700000999) (dirty Demo.row)).
Proof.
  apply (updateAccessTime_sets_last_accessed Sqlite.healthy Sample.two_rows
           "/b.txt" 1700000999 Demo.row
           (updateAccessTime Sqlite.healthy Sample.two_rows "/b.txt"
              1700000999).2).
  - vm_compute. reflexivity.
  - vm_compute. reflexivity.
Defined.

(** /b.txt marked clean. *)
Lemma markDirty_sets_dirty_witness :
  get Sqlite.healthy
    (markDirty Sqlite.healthy Sample.two_rows "/b.txt" false).2 "/b.txt"
  = Some (Meta (path Demo.row) (local_path Demo.row) (size Demo.row)
            (timestamp Demo.row) (last_accessed Demo.row) false).
Proof.
  apply (markDirty_sets_dirty Sqlite.healthy Sample.two_rows "/b.txt" false
           Demo.row
           (markDirty Sqlite.healthy Sample.two_rows "/b.txt" false).2).
  - vm_compute. reflexivity.
  - vm_compute. reflexivity.
Defined.

Lemma table_ok_two_rows : table_ok (db Sample.two_rows).
Proof. apply table_ok_put, table_ok_put, table_ok_empty. Qed.

(** The listing of the two rows. *)
Lemma allEntries_agrees_with_get_witness :
  length (allEntries Sqlite.healthy None Sample.two_rows) = 2
  ∧ Demo.row ∈ allEntries Sqlite.healthy None Sample.two_rows.
Proof.
  destruct (allEntries_agrees_with_get Sample.two_rows table_ok_two_rows)
    as (Hlen & _ & Hmem).
  split.
  - rewrite Hlen. vm_compute. reflexivity.
  - apply Hmem. split; vm_compute; reflexivity.
Defined.

(** The invariant from the empty table on. *)
Lemma table_ok_is_kept_witness :
  table_ok (db (put Sqlite.healthy Demo.fresh Demo.row).2).
Proof.
  apply (table_ok_is_kept Sqlite.healthy Demo.fresh).
  apply table_ok_empty.
Defined.

(** A store with one row: restart keeps it, cleanup does not. *)
Lemma rows_survive_destructor_not_cleanup_witness :
  Lifecycle.init None None
    (Lifecycle.construct
       (Lifecycle.table_
          (Lifecycle.destroy
             (Lifecycle.Store true
                (Some (db (put Sqlite.healthy Demo.fresh Demo.row).2)) 0))))
  = (true,
     Lifecycle.Store true
       (Some (db (put Sqlite.healthy Demo.fresh Demo.row).2)) 0)
  ∧ Lifecycle.init None None
      (Lifecycle.cleanup None
         (Lifecycle.Store true
            (Some (db (put Sqlite.healthy Demo.fresh Demo.row).2)) 0))
    = (true, Lifecycle.Store true (Some ∅) 1).
Proof.
  destruct (rows_survive_destructor_not_cleanup
              (Lifecycle.Store true
                 (Some (db (put Sqlite.healthy Demo.fresh Demo.row).2)) 0)
              (db (put Sqlite.healthy Demo.fresh Demo.row).2)
              Sqlite.SQLITE_ERROR) as (H1 & H2 & _).
  - reflexivity.
  - reflexivity.
  - exact (conj H1 H2).
Defined.

(** An initialised store cleaned up and destroyed: one close. *)
Lemma connection_closed_once_witness :
  Lifecycle.closed
    (Lifecycle.destroy
       (Lifecycle.cleanup None
          (Lifecycle.init None None (Lifecycle.construct None)).2))
  = 1.
Proof.
  destruct (connection_closed_once
              (Lifecycle.init None None (Lifecycle.construct None)).2
              None None None Sqlite.SQLITE_ERROR) as (_ & -> & -> & _).
  - reflexivity.
  - reflexivity.
Defined.
